(** * d1-exporter: the SQL statement splitter of [src/main.ts]

    A shallow embedding of [handleComments], [handleStrings] and
    [splitSqlStatements], and the properties of the splitter.

    JavaScript strings are sequences of UTF-16 code units.  A code unit is a
    number ([N]); a string is a list of code units.  The one-character
    strings the scanner manipulates ([char], [nextChar], [prevChar],
    [stringChar]) are either one code unit or the empty string: [char]
    is always a code unit, the other three are [option Char] with [None]
    standing for the empty string. *)

From Stdlib Require Import String Ascii.
From Stdlib Require Import List NArith Bool Arith Lia.
Import ListNotations.

#[local] Arguments N.eqb : simpl never.

(** ** JavaScript strings *)

Definition Char := N.
Definition jsstring := list Char.

(** ASCII literals, for readable examples. *)
Definition js (s : string) : jsstring :=
  List.map N_of_ascii (list_ascii_of_string s).

Definition DASH : Char := 45%N.        (* hyphen-minus *)
Definition LF : Char := 10%N.          (* newline *)
Definition CR : Char := 13%N.          (* carriage return *)
Definition SQUOTE : Char := 39%N.      (* single quote *)
Definition DQUOTE : Char := 34%N.      (* double quote *)
Definition BACKSLASH : Char := 92%N.   (* backslash *)
Definition SEMI : Char := 59%N.        (* semicolon, the terminator *)

(** [a === b] on a one-code-unit string and a string of length at most one. *)
Definition eqc (a : Char) (b : option Char) : bool :=
  match b with
  | Some b' => N.eqb a b'
  | None => false
  end.

(** The code units [String.prototype.trim] removes: ECMAScript WhiteSpace
    (TAB, VT, FF, SP, NBSP, ZWNBSP and the Unicode Zs category) and
    LineTerminator (LF, CR, LS, PS).  All of them lie in the BMP. *)
Definition isWhiteSpace (c : Char) : bool :=
  ((9 <=? c) && (c <=? 13) || (c =? 32) || (c =? 160) || (c =? 5760)
   || (8192 <=? c) && (c <=? 8202) || (c =? 8232) || (c =? 8233)
   || (c =? 8239) || (c =? 8287) || (c =? 12288) || (c =? 65279))%N.

Fixpoint trimStart (s : jsstring) : jsstring :=
  match s with
  | [] => []
  | c :: s' => if isWhiteSpace c then trimStart s' else s
  end.

Definition trimEnd (s : jsstring) : jsstring := rev (trimStart (rev s)).

Definition trim (s : jsstring) : jsstring := trimEnd (trimStart s).

(** Truthiness of a string: non-empty. *)
Definition truthy (s : jsstring) : bool :=
  match s with
  | [] => false
  | _ :: _ => true
  end.

(** ** [handleComments] *)

Module CommentContext.
Record t := mk { inString : bool; inComment : bool }.
End CommentContext.

Module CommentResult.
Record t := mk { shouldContinue : bool; newInComment : bool }.
End CommentResult.

Definition handleComments (char : Char) (nextChar : option Char)
    (context : CommentContext.t) : CommentResult.t :=
  (* Handle comment start *)
  if negb (CommentContext.inString context) && (char =? DASH)%N && eqc DASH nextChar
  then CommentResult.mk true true
  (* Handle comment end (newline) *)
  else if CommentContext.inComment context && ((char =? LF)%N || (char =? CR)%N)
  then CommentResult.mk true false
  else CommentResult.mk false (CommentContext.inComment context).

(** ** [handleStrings] *)

Module StringContext.
Record t := mk { inString : bool; stringChar : option Char }.
End StringContext.

Module StringResult.
Record t := mk { shouldContinue : bool; newInString : bool;
                 newStringChar : option Char }.
End StringResult.

Definition handleStrings (char : Char) (prevChar : option Char)
    (context : StringContext.t) : StringResult.t :=
  (* Handle string start *)
  if negb (StringContext.inString context)
     && ((char =? SQUOTE)%N || (char =? DQUOTE)%N)
  then StringResult.mk true true (Some char)
  (* Handle string end, note escaped characters *)
  else if StringContext.inString context
          && eqc char (StringContext.stringChar context)
          && negb (eqc BACKSLASH prevChar)
  then StringResult.mk true false None
  else StringResult.mk false (StringContext.inString context)
                       (StringContext.stringChar context).

(** ** [splitSqlStatements] *)

(** The local variables of [splitSqlStatements]. *)
Record LexState := mkLex {
  statements : list jsstring;
  currentStatement : jsstring;
  inString : bool;
  inComment : bool;
  stringChar : option Char
}.

Definition initial : LexState := mkLex [] [] false false None.

(** One iteration of the [for] loop, given the three characters it reads. *)
Definition iteration (prevChar : option Char) (char : Char)
    (nextChar : option Char) (st : LexState) : LexState :=
  (* Add character to current statement *)
  let cur := currentStatement st ++ [char] in
  (* Process comments *)
  let commentResult :=
    handleComments char nextChar
      (CommentContext.mk (inString st) (inComment st)) in
  if CommentResult.shouldContinue commentResult then
    mkLex (statements st) cur (inString st)
          (CommentResult.newInComment commentResult) (stringChar st)
  (* Skip content inside comments *)
  else if inComment st then
    mkLex (statements st) cur (inString st) (inComment st) (stringChar st)
  else
    (* Process strings *)
    let stringResult :=
      handleStrings char prevChar
        (StringContext.mk (inString st) (stringChar st)) in
    if StringResult.shouldContinue stringResult then
      mkLex (statements st) cur (StringResult.newInString stringResult)
            (inComment st) (StringResult.newStringChar stringResult)
    (* Skip content inside strings *)
    else if inString st then
      mkLex (statements st) cur (inString st) (inComment st) (stringChar st)
    (* Handle statement delimiter (semicolon) *)
    else if (char =? SEMI)%N then
      mkLex (statements st ++ [trim cur]) [] (inString st) (inComment st)
            (stringChar st)
    else
      mkLex (statements st) cur (inString st) (inComment st) (stringChar st).

(** The loop body at index [i]: [char = sqlContent[i]],
    [nextChar = sqlContent[i + 1] || ''],
    [prevChar = i > 0 ? sqlContent[i - 1] : '']. *)
Definition loopBody (sqlContent : jsstring) (i : nat) (st : LexState)
    : LexState :=
  match nth_error sqlContent i with
  | None => st
  | Some char =>
      let nextChar := nth_error sqlContent (i + 1) in
      let prevChar := if 0 <? i then nth_error sqlContent (i - 1) else None in
      iteration prevChar char nextChar st
  end.

(** The state of the scan when the loop variable is [k]: iterations
    [0 .. k-1] have run. *)
Definition scan (sqlContent : jsstring) (k : nat) : LexState :=
  fold_left (fun st i => loopBody sqlContent i st) (seq 0 k) initial.

(** Add the last statement (if any). *)
Definition finish (st : LexState) : list jsstring :=
  if truthy (trim (currentStatement st))
  then statements st ++ [trim (currentStatement st)]
  else statements st.

Definition splitSqlStatements (sqlContent : jsstring) : list jsstring :=
  finish (scan sqlContent (length sqlContent)).

(** Position [k] is a statement boundary: iteration [k] pushed a statement. *)
Definition is_boundary (sqlContent : jsstring) (k : nat) : bool :=
  length (statements (scan sqlContent (S k)))
  =? S (length (statements (scan sqlContent k))).

(** ** Structural form of the loop

    [runTo prevChar l nextChar st] runs the loop body over the characters of
    [l], where [prevChar] is the character before [l] and [nextChar] the one
    after it (both empty at the ends of the input). *)
Fixpoint runTo (prevChar : option Char) (l : jsstring) (nextChar : option Char)
    (st : LexState) : LexState :=
  match l with
  | [] => st
  | c :: l' =>
      let n := match l' with [] => nextChar | d :: _ => Some d end in
      runTo (Some c) l' nextChar (iteration prevChar c n st)
  end.

Definition run (l : jsstring) : LexState := runTo None l None initial.

(** The lexical mode: the three state variables besides the buffers. *)
Definition Mode : Type := bool * bool * option Char.

Definition modeOf (st : LexState) : Mode :=
  (inString st, inComment st, stringChar st).

Definition NORMAL : Mode := (false, false, None).

(** The mode after one iteration. *)
Definition nextMode (p : option Char) (c : Char) (n : option Char) (m : Mode)
    : Mode :=
  let '(s, cm, q) := m in
  if negb s && (c =? DASH)%N && eqc DASH n then (s, true, q)
  else if cm && ((c =? LF)%N || (c =? CR)%N) then (s, false, q)
  else if cm then m
  else if negb s && ((c =? SQUOTE)%N || (c =? DQUOTE)%N) then (true, cm, Some c)
  else if s && eqc c q && negb (eqc BACKSLASH p) then (false, cm, None)
  else m.

(** The iteration pushes a statement. *)
Definition cuts (c : Char) (m : Mode) : bool :=
  let '(s, cm, _) := m in negb s && negb cm && (c =? SEMI)%N.

Definition withMode (stmts : list jsstring) (cur : jsstring) (m : Mode)
    : LexState :=
  let '(s, cm, q) := m in mkLex stmts cur s cm q.

Definition blank (l : jsstring) : bool := forallb isWhiteSpace l.

(** String and comment mode exclude each other, and [stringChar] is a quote
    exactly while in a string. *)
Definition wf (m : Mode) : Prop :=
  let '(s, cm, q) := m in
  (s = true -> cm = false /\ (q = Some SQUOTE \/ q = Some DQUOTE))
  /\ (s = false -> q = None).

(** The character before position [k]: [prevChar] of iteration [k]. *)
Definition prevAt (s : jsstring) (k : nat) : option Char :=
  if 0 <? k then nth_error s (k - 1) else None.

(** ** Vocabulary of the properties *)

(** Iteration [i] reads the quote [q] outside any string or comment, which
    opens a string. *)
Definition opensString (s : jsstring) (i : nat) (q : Char) : bool :=
  negb (inString (scan s i)) && negb (inComment (scan s i))
  && eqc q (nth_error s i) && ((q =? SQUOTE)%N || (q =? DQUOTE)%N).

(** Position [k] holds the quote [q] and is not preceded by a backslash. *)
Definition closesString (s : jsstring) (q : Char) (k : nat) : bool :=
  eqc q (nth_error s k) && negb (eqc BACKSLASH (prevAt s k)).

(** No position strictly between [i] and [k] closes a string opened by [q]. *)
Definition unclosedBetween (s : jsstring) (q : Char) (i k : nat) : bool :=
  forallb (fun m => negb (closesString s q m)) (seq (S i) (k - S i)).

(** Iteration [i] reads the first dash of [--] outside any string. *)
Definition opensComment (s : jsstring) (i : nat) : bool :=
  negb (inString (scan s i)) && eqc DASH (nth_error s i)
  && eqc DASH (nth_error s (i + 1)).

Definition isLineEnd (s : jsstring) (k : nat) : bool :=
  eqc LF (nth_error s k) || eqc CR (nth_error s k).

(** No newline or carriage return strictly between [i] and [k]. *)
Definition sameLineBetween (s : jsstring) (i k : nat) : bool :=
  forallb (fun m => negb (isLineEnd s m)) (seq (S i) (k - S i)).

(** None of the positions [i], ..., [i + n - 1] is a statement boundary. *)
Definition noBoundary (s : jsstring) (i n : nat) : bool :=
  forallb (fun m => negb (is_boundary s m)) (seq i n).

(** The last character is the terminator. *)
Definition endsWithTerminator (x : jsstring) : bool :=
  match rev x with
  | c :: _ => (c =? SEMI)%N
  | [] => false
  end.

(** [pieces] reconstruct [s] up to the whitespace trimmed around each piece:
    [s] is cut into consecutive segments whose trimmed forms are the pieces,
    followed by a rest that is only whitespace. *)
Definition sameModuloTrim (pieces : list jsstring) (s : jsstring) : Prop :=
  exists segs rest,
    s = concat segs ++ rest /\ map trim segs = pieces /\ blank rest = true.

(** Each statement with the terminator appended once more. *)
Definition reappendTerminator (stmts : list jsstring) : list jsstring :=
  map (fun x => x ++ [SEMI]) stmts.

(** The statements the splitter emits when the loop starts on [l] with
    buffer [cur] in mode [m], [p] being the character before [l]. *)
Definition emitted (p : option Char) (l : jsstring) (cur : jsstring)
    (m : Mode) : list jsstring :=
  finish (runTo p l None (withMode [] cur m)).

(** The input without the whitespace that trimming removes: the whitespace
    read while the buffer is blank ([fresh]), and the whitespace that ends
    the input. *)
Fixpoint squeeze (p : option Char) (l : jsstring) (fresh : bool) (m : Mode)
    : jsstring :=
  match l with
  | [] => []
  | c :: l' =>
      if blank l then []
      else if fresh && isWhiteSpace c then squeeze (Some c) l' true m
      else c :: squeeze (Some c) l' (cuts c m)
                        (nextMode p c (hd_error l') m)
  end.

(** ** The statement loop of [convertSqlToSqlite]

    [db.exec] belongs to the database driver: it is a parameter [exec], which
    returns the database after the call and the error it threw, if any.
    [execLog] records the arguments of the calls to [db.exec], [consoleLog]
    the texts handed to [console.error] (before colouring). *)

Record World (DB : Type) := mkWorld {
  db : DB;
  execLog : list jsstring;
  consoleLog : list jsstring
}.

Arguments mkWorld {DB} _ _ _.
Arguments db {DB} _.
Arguments execLog {DB} _.
Arguments consoleLog {DB} _.

(** [statement.substring(0, 100)]. *)
Definition substring0 (n : nat) (s : jsstring) : jsstring := firstn n s.

(** The body of [for (const statement of statements)]. *)
Definition executeStatement {DB Err : Type}
    (exec : DB -> jsstring -> DB * option Err) (message : Err -> jsstring)
    (w : World DB) (statement : jsstring) : World DB :=
  if truthy (trim statement) then
    match exec (db w) statement with
    | (db', None) => mkWorld db' (execLog w ++ [statement]) (consoleLog w)
    | (db', Some err) =>
        mkWorld db' (execLog w ++ [statement])
          (consoleLog w
           ++ [js "Warning: Failed to execute statement: "
                 ++ substring0 100 statement ++ js "...";
               js "Error: " ++ message err])
    end
  else w.

Definition executeStatements {DB Err : Type}
    (exec : DB -> jsstring -> DB * option Err) (message : Err -> jsstring)
    (w : World DB) (statements : list jsstring) : World DB :=
  fold_left (executeStatement exec message) statements w.

(** ** The text [convertSqliteToSql] builds

    The results of the three queries are data: a table has its [name], the
    [sql] of its [CREATE TABLE], and its [rows].  A row is the object
    better-sqlite3 returns, as the list of its keys and values in the order
    of [Object.keys].  Numbers and the values of other types are kept
    abstract, with the text their string conversion gives
    ([numberToString], [otherToString]). *)

Inductive SQLiteValue (Number Other : Type) : Type :=
| JNull
| JNumber (n : Number)
| JString (s : jsstring)
| JBuffer (b : list Byte.byte)
| JOther (o : Other).

Arguments JNull {Number Other}.
Arguments JNumber {Number Other} _.
Arguments JString {Number Other} _.
Arguments JBuffer {Number Other} _.
Arguments JOther {Number Other} _.

Definition SQLiteRow (Number Other : Type) : Type :=
  list (jsstring * SQLiteValue Number Other).

Record SQLiteTable (Number Other : Type) := mkTable {
  name : jsstring;
  sql : jsstring;
  rows : list (SQLiteRow Number Other)
}.

Arguments mkTable {Number Other} _ _ _.
Arguments name {Number Other} _.
Arguments sql {Number Other} _.
Arguments rows {Number Other} _.

Definition eqs (a b : jsstring) : bool :=
  if list_eq_dec N.eq_dec a b then true else false.

(** [row[col]]; [None] is [undefined]. *)
Fixpoint getProperty {V : Type} (row : list (jsstring * V)) (col : jsstring)
    : option V :=
  match row with
  | [] => None
  | (k, v) :: row' => if eqs k col then Some v else getProperty row' col
  end.

(** [Object.keys(row)]. *)
Definition keys {V : Type} (row : list (jsstring * V)) : list jsstring :=
  map fst row.

(** [val.replace(/'/g, "''")]. *)
Definition escapeQuotes (val : jsstring) : jsstring :=
  flat_map (fun c => if (c =? SQUOTE)%N then [SQUOTE; SQUOTE] else [c]) val.

(** One lowercase hexadecimal digit. *)
Definition hexDigit (n : N) : Char :=
  if (n <? 10)%N then (48 + n)%N else (87 + n)%N.

(** [val.toString('hex')] on a Buffer. *)
Definition toHex (b : list Byte.byte) : jsstring :=
  flat_map (fun x => [hexDigit (Byte.to_N x / 16); hexDigit (Byte.to_N x mod 16)]) b.

(** [Array.prototype.join]. *)
Fixpoint join (sep : jsstring) (l : list jsstring) : jsstring :=
  match l with
  | [] => []
  | [x] => x
  | x :: l' => x ++ sep ++ join sep l'
  end.

(** The callback of [columns.map], as the text [join] makes of its result;
    [None] is [undefined], which reaches the last [return]. *)
Definition renderValue {Number Other : Type}
    (numberToString : Number -> jsstring) (otherToString : Other -> jsstring)
    (val : option (SQLiteValue Number Other)) : jsstring :=
  match val with
  | Some JNull => js "NULL"
  | Some (JNumber n) => numberToString n
  | Some (JString s) => [SQUOTE] ++ escapeQuotes s ++ [SQUOTE]
  | Some (JBuffer b) => js "X'" ++ toHex b ++ [SQUOTE]
  | Some (JOther o) => [SQUOTE] ++ otherToString o ++ [SQUOTE]
  | None => [SQUOTE] ++ js "undefined" ++ [SQUOTE]
  end.

Definition rowValues {Number Other : Type}
    (numberToString : Number -> jsstring) (otherToString : Other -> jsstring)
    (columns : list jsstring) (row : SQLiteRow Number Other) : jsstring :=
  join (js ", ")
       (map (fun col => renderValue numberToString otherToString
                          (getProperty row col)) columns).

(** The [INSERT] statement of a row, without the newline that follows it. *)
Definition insertStatement (tableName columnNames values : jsstring)
    : jsstring :=
  js "INSERT INTO " ++ tableName ++ js " (" ++ columnNames
  ++ js ") VALUES (" ++ values ++ js ");".

(** The body of [for (const table of tables)], on the text built so far. *)
Definition appendTable {Number Other : Type}
    (numberToString : Number -> jsstring) (otherToString : Other -> jsstring)
    (sqlOutput : jsstring) (table : SQLiteTable Number Other) : jsstring :=
  let tableName := name table in
  let sqlOutput := sqlOutput ++ sql table ++ [SEMI; LF; LF] in
  match rows table with
  | [] => sqlOutput
  | row0 :: _ =>
      let columns := keys row0 in
      let columnNames := join (js ", ") columns in
      let sqlOutput :=
        fold_left
          (fun out row =>
             out ++ insertStatement tableName columnNames
                      (rowValues numberToString otherToString columns row)
                 ++ [LF])
          (rows table) sqlOutput in
      sqlOutput ++ [LF]
  end.

(** [sqlOutput] when the loop over the tables ends. *)
Definition sqlOutputOf {Number Other : Type}
    (numberToString : Number -> jsstring) (otherToString : Other -> jsstring)
    (tables : list (SQLiteTable Number Other)) : jsstring :=
  fold_left (appendTable numberToString otherToString) tables [].

(** ** The default output path of the [convert] command *)

(** [s] ends with [suffix]. *)
Definition endsWith (suffix s : jsstring) : bool :=
  eqs (skipn (length s - length suffix) s) suffix.

Definition dropLast (n : nat) (s : jsstring) : jsstring :=
  firstn (length s - n) s.

(** [inputFile.replace(/\.(sqlite|sqlite3|db)$/, '')]: the pattern is
    anchored at the end of the input, so it matches when the input ends
    with one of the three extensions, which is then removed. *)
Definition stripDbExtension (inputFile : jsstring) : jsstring :=
  if endsWith (js ".sqlite") inputFile then dropLast 7 inputFile
  else if endsWith (js ".sqlite3") inputFile then dropLast 8 inputFile
  else if endsWith (js ".db") inputFile then dropLast 3 inputFile
  else inputFile.

(** [options.output] when no output path is given, from
    [inputFile = path.basename(options.file)]. *)
Definition defaultOutput (inputFile : jsstring) : jsstring :=
  js "./" ++ stripDbExtension inputFile ++ js ".sql".

(** ** Vocabulary of the further properties *)

(** The character before the text that follows [l], when [p] is the one
    before [l]. *)
Definition lastOr (p : option Char) (l : jsstring) : option Char :=
  match rev l with
  | [] => p
  | c :: _ => Some c
  end.

(** The character after the last one of a text followed by [l], then [nx]. *)
Definition lookahead (l : jsstring) (nx : option Char) : option Char :=
  match l with
  | [] => nx
  | d :: _ => Some d
  end.

(** The mode after the loop has read [l] from mode [m], when no character of
    [l] is a boundary; [None] when one is. *)
Fixpoint modeRun (p : option Char) (l : jsstring) (nx : option Char) (m : Mode)
    : option Mode :=
  match l with
  | [] => Some m
  | c :: l' =>
      if cuts c m then None
      else modeRun (Some c) l' nx (nextMode p c (lookahead l' nx) m)
  end.

(** Read outside strings and comments, [l] holds no boundary and leaves the
    scan outside strings and comments, whatever follows it (a dash after
    [l] is the case that could open a comment at its last character). *)
Definition transparent (l : jsstring) : bool :=
  match modeRun None l (Some DASH) NORMAL with
  | Some (s, cm, _) => negb s && negb cm
  | None => false
  end.

(** In [p] followed by [v] and a closing quote, no quote comes right after a
    backslash. *)
Fixpoint safeAfter (p : Char) (v : jsstring) : bool :=
  match v with
  | [] => negb (p =? BACKSLASH)%N
  | c :: v' =>
      (if (c =? SQUOTE)%N then negb (p =? BACKSLASH)%N else true)
      && safeAfter c v'
  end.

Definition noQuote (v : jsstring) : bool :=
  forallb (fun c => negb (c =? SQUOTE)%N) v.

(** Neither a quote nor a dash occurs in [l]. *)
Definition quoteDashFree (l : jsstring) : bool :=
  forallb (fun c => negb ((c =? SQUOTE)%N || (c =? DQUOTE)%N || (c =? DASH)%N)) l.

(** The columns of a table's rows, as the loop takes them from the first
    row. *)
Definition columnsOf {Number Other : Type} (table : SQLiteTable Number Other)
    : list jsstring :=
  match rows table with
  | [] => []
  | row0 :: _ => keys row0
  end.

(** Every piece the text of a table is made of is transparent. *)
Definition safeTable {Number Other : Type}
    (numberToString : Number -> jsstring) (otherToString : Other -> jsstring)
    (table : SQLiteTable Number Other) : bool :=
  transparent (sql table) && transparent (name table)
  && forallb transparent (columnsOf table)
  && forallb
       (fun row =>
          forallb
            (fun col => transparent (renderValue numberToString otherToString
                                       (getProperty row col)))
            (columnsOf table))
       (rows table).

(** The statements of a table's text. *)
Definition tableStatements {Number Other : Type}
    (numberToString : Number -> jsstring) (otherToString : Other -> jsstring)
    (table : SQLiteTable Number Other) : list jsstring :=
  trim (sql table ++ [SEMI])
  :: map (fun row =>
            insertStatement (name table) (join (js ", ") (columnsOf table))
              (rowValues numberToString otherToString (columnsOf table) row))
         (rows table).

(** In a string opened by a single quote. *)
Definition IN_SQUOTE : Mode := (true, false, Some SQUOTE).

(** The lines of a table's rows, and the text of a table, as the loop over
    the tables appends them. *)
Definition insertLines {Number Other : Type}
    (numberToString : Number -> jsstring) (otherToString : Other -> jsstring)
    (table : SQLiteTable Number Other) : jsstring :=
  concat
    (map (fun row =>
            insertStatement (name table) (join (js ", ") (columnsOf table))
              (rowValues numberToString otherToString (columnsOf table) row)
            ++ [LF])
         (rows table)).

Definition tableText {Number Other : Type}
    (numberToString : Number -> jsstring) (otherToString : Other -> jsstring)
    (table : SQLiteTable Number Other) : jsstring :=
  sql table ++ [SEMI; LF; LF]
  ++ match rows table with
     | [] => []
     | _ :: _ => insertLines numberToString otherToString table ++ [LF]
     end.

(** ** Whitespace trimming *)

Section Trim.

Lemma trimStart_blank w : blank w = true -> trimStart w = [].
Proof.
  induction w as [|c w IH]; simpl; [reflexivity|].
  intros H. apply andb_true_iff in H as [Hc Hw]. rewrite Hc. auto.
Qed.

Lemma trimStart_app_blank w l :
  blank w = true -> trimStart (w ++ l) = trimStart l.
Proof.
  induction w as [|c w IH]; simpl; [reflexivity|].
  intros H. apply andb_true_iff in H as [Hc Hw]. rewrite Hc. auto.
Qed.

Lemma trimStart_app_nonblank l r :
  blank l = false -> trimStart (l ++ r) = trimStart l ++ r.
Proof.
  induction l as [|c l IH]; simpl; [discriminate|].
  destruct (isWhiteSpace c); simpl; auto.
Qed.

Lemma trimStart_split l :
  exists w, l = w ++ trimStart l /\ blank w = true.
Proof.
  induction l as [|c l [w [E B]]]; simpl.
  - exists []. auto.
  - destruct (isWhiteSpace c) eqn:Hc.
    + exists (c :: w). simpl. rewrite Hc, B. split; [congruence|reflexivity].
    + exists []. auto.
Qed.

Lemma trimStart_head l c r :
  trimStart l = c :: r -> isWhiteSpace c = false.
Proof.
  induction l as [|d l IH]; simpl; [discriminate|].
  destruct (isWhiteSpace d) eqn:Hd; auto.
  intros E. injection E as -> _. exact Hd.
Qed.

Lemma trimStart_nil_blank l : trimStart l = [] -> blank l = true.
Proof.
  induction l as [|d l IH]; simpl; [reflexivity|].
  destruct (isWhiteSpace d); simpl; [auto|discriminate].
Qed.

Lemma trimStart_fix l c : isWhiteSpace c = false -> trimStart (c :: l) = c :: l.
Proof. intros H. simpl. now rewrite H. Qed.

Lemma blank_app a b : blank (a ++ b) = blank a && blank b.
Proof. apply forallb_app. Qed.

Lemma blank_rev l : blank (rev l) = blank l.
Proof.
  induction l as [|c l IH]; simpl; [reflexivity|].
  rewrite blank_app, IH. simpl. rewrite andb_true_r. apply andb_comm.
Qed.

Lemma trimEnd_app_blank l w : blank w = true -> trimEnd (l ++ w) = trimEnd l.
Proof.
  intros H. unfold trimEnd. rewrite rev_app_distr.
  rewrite trimStart_app_blank; [reflexivity|]. now rewrite blank_rev.
Qed.

Lemma trimEnd_snoc l c : isWhiteSpace c = false -> trimEnd (l ++ [c]) = l ++ [c].
Proof.
  intros H. unfold trimEnd. rewrite rev_app_distr. simpl. rewrite H.
  simpl. now rewrite rev_involutive.
Qed.

Lemma trimEnd_split l : exists w, l = trimEnd l ++ w /\ blank w = true.
Proof.
  destruct (trimStart_split (rev l)) as [w [E B]].
  exists (rev w). split.
  - unfold trimEnd. rewrite <- rev_app_distr, <- E. now rewrite rev_involutive.
  - now rewrite blank_rev.
Qed.

Lemma trimEnd_nil_blank l : trimEnd l = [] -> blank l = true.
Proof.
  unfold trimEnd. intros H.
  assert (E : trimStart (rev l) = []).
  { rewrite <- (rev_involutive (trimStart (rev l))), H. reflexivity. }
  apply trimStart_nil_blank in E. now rewrite blank_rev in E.
Qed.

Lemma trim_nil_blank l : trim l = [] -> blank l = true.
Proof.
  unfold trim. intros H. apply trimEnd_nil_blank in H.
  destruct (trimStart l) as [|c r] eqn:E.
  - now apply trimStart_nil_blank.
  - apply trimStart_head in E. simpl in H. now rewrite E in H.
Qed.

(** A buffer that ends with a non-whitespace character only loses its
    leading whitespace. *)
Lemma trim_snoc l c : isWhiteSpace c = false -> trim (l ++ [c]) = trimStart l ++ [c].
Proof.
  intros H. unfold trim.
  destruct (blank l) eqn:B.
  - rewrite trimStart_app_blank by assumption.
    rewrite (trimStart_blank l B). simpl. rewrite H.
    apply (trimEnd_snoc [] c H).
  - rewrite trimStart_app_nonblank by assumption. now apply trimEnd_snoc.
Qed.

Lemma trim_app_blank_l w l : blank w = true -> trim (w ++ l) = trim l.
Proof. intros H. unfold trim. now rewrite trimStart_app_blank. Qed.

Lemma trim_app_blank_r l w : blank w = true -> trim (l ++ w) = trim l.
Proof.
  intros H. unfold trim. destruct (blank l) eqn:B.
  - rewrite trimStart_app_blank by assumption.
    rewrite (trimStart_blank l B), (trimStart_blank w H). reflexivity.
  - rewrite trimStart_app_nonblank by assumption. now apply trimEnd_app_blank.
Qed.

(** [trim] removes a whitespace prefix and a whitespace suffix. *)
Lemma trim_split l :
  exists a b, l = a ++ trim l ++ b /\ blank a = true /\ blank b = true.
Proof.
  destruct (trimStart_split l) as [a [Ea Ba]].
  destruct (trimEnd_split (trimStart l)) as [b [Eb Bb]].
  exists a, b. unfold trim. rewrite <- Eb. auto.
Qed.

Lemma trim_length l : length (trim l) <= length l.
Proof.
  destruct (trim_split l) as [a [b [E _]]].
  rewrite E at 2. rewrite !length_app. lia.
Qed.

Lemma trim_idem l : trim (trim l) = trim l.
Proof.
  destruct (trim_split l) as [a [b [E [Ba Bb]]]].
  rewrite E at 2.
  rewrite trim_app_blank_l by assumption.
  now rewrite trim_app_blank_r by assumption.
Qed.

Lemma trim_trimStart l : trim (trimStart l) = trim l.
Proof.
  destruct (trimStart_split l) as [w [E B]].
  rewrite <- (trim_app_blank_l w (trimStart l) B). now rewrite <- E.
Qed.

Lemma trimStart_idem l : trimStart (trimStart l) = trimStart l.
Proof.
  induction l as [|a l IH]; simpl; [reflexivity|].
  destruct (isWhiteSpace a) eqn:Ha; [assumption|].
  simpl. now rewrite Ha.
Qed.

End Trim.

(** ** The loop body as a mode transition *)

Section Iteration.

Lemma withMode_modeOf stmts cur m : modeOf (withMode stmts cur m) = m.
Proof. destruct m as [[s cm] q]. reflexivity. Qed.

Lemma withMode_statements stmts cur m : statements (withMode stmts cur m) = stmts.
Proof. destruct m as [[s cm] q]. reflexivity. Qed.

Lemma withMode_current stmts cur m : currentStatement (withMode stmts cur m) = cur.
Proof. destruct m as [[s cm] q]. reflexivity. Qed.

(** An iteration either pushes the trimmed buffer and leaves the mode
    alone, or extends the buffer and moves to the next mode. *)
Lemma iteration_eq p c n st :
  iteration p c n st =
  if cuts c (modeOf st)
  then withMode (statements st ++ [trim (currentStatement st ++ [c])]) []
                (modeOf st)
  else withMode (statements st) (currentStatement st ++ [c])
                (nextMode p c n (modeOf st)).
Proof.
  destruct st as [stmts cur s cm q].
  unfold iteration, handleComments, handleStrings, cuts, nextMode, modeOf,
    withMode; simpl.
  destruct s, cm; simpl;
    repeat match goal with
           | |- context [if ?b then _ else _] => destruct b eqn:?; simpl
           end;
    try reflexivity; try discriminate.
  all: repeat match goal with
              | H : (_ =? _)%N = true |- _ => apply N.eqb_eq in H; subst
              | H : _ && _ = true |- _ => apply andb_true_iff in H as [? ?]
              | H : _ || _ = true |- _ => apply orb_true_iff in H as [?|?]
              end; try discriminate.
Qed.

Lemma cuts_nextMode p c n m : cuts c m = true -> nextMode p c n m = m.
Proof.
  destruct m as [[s cm] q]. unfold cuts, nextMode.
  destruct s, cm; simpl; try discriminate.
  intros H. apply N.eqb_eq in H. subst c. reflexivity.
Qed.

Lemma cuts_spec c m : cuts c m = true <-> fst (fst m) = false /\ snd (fst m) = false /\ c = SEMI.
Proof.
  destruct m as [[s cm] q]. unfold cuts. simpl.
  rewrite !andb_true_iff, !negb_true_iff, N.eqb_eq. tauto.
Qed.

Lemma iteration_mode p c n st :
  modeOf (iteration p c n st) = nextMode p c n (modeOf st).
Proof.
  rewrite iteration_eq. destruct (cuts c (modeOf st)) eqn:E;
    rewrite withMode_modeOf; [symmetry; now apply cuts_nextMode | reflexivity].
Qed.

Lemma iteration_statements p c n st :
  statements (iteration p c n st) =
  if cuts c (modeOf st)
  then statements st ++ [trim (currentStatement st ++ [c])]
  else statements st.
Proof.
  rewrite iteration_eq. destruct (cuts c (modeOf st));
    now rewrite withMode_statements.
Qed.

Lemma iteration_current p c n st :
  currentStatement (iteration p c n st) =
  if cuts c (modeOf st) then [] else currentStatement st ++ [c].
Proof.
  rewrite iteration_eq. destruct (cuts c (modeOf st));
    now rewrite withMode_current.
Qed.

Lemma wf_nextMode p c n m : wf m -> wf (nextMode p c n m).
Proof.
  destruct m as [[s cm] q]. unfold wf, nextMode.
  intros [H1 H2].
  destruct s; simpl.
  - destruct (H1 eq_refl) as [-> Hq]. simpl.
    destruct (eqc c q && negb (eqc BACKSLASH p)); split; intros; try discriminate; auto.
  - specialize (H2 eq_refl). subst q.
    destruct ((c =? DASH)%N && eqc DASH n); [split; intros; [discriminate|reflexivity]|].
    destruct (cm && ((c =? LF)%N || (c =? CR)%N)); [split; intros; [discriminate|reflexivity]|].
    destruct cm; [split; intros; [discriminate|reflexivity]|].
    destruct (c =? SQUOTE)%N eqn:E1; simpl.
    + apply N.eqb_eq in E1. subst. split; intros; [auto|discriminate].
    + destruct (c =? DQUOTE)%N eqn:E2.
      * apply N.eqb_eq in E2. subst. split; intros; [auto|discriminate].
      * split; intros; [discriminate|reflexivity].
Qed.

Lemma wf_NORMAL : wf NORMAL.
Proof. split; intros; [discriminate|reflexivity]. Qed.

Lemma wf_cuts c m : wf m -> cuts c m = true -> m = NORMAL.
Proof.
  destruct m as [[s cm] q]. intros [_ H2] H.
  apply cuts_spec in H as [Hs [Hc _]]. simpl in *. subst.
  now rewrite (H2 eq_refl).
Qed.

End Iteration.

(** ** The indexed loop and its structural form *)

Section Scan.

Lemma scan_S s k : scan s (S k) = loopBody s k (scan s k).
Proof.
  unfold scan. rewrite seq_S, fold_left_app. reflexivity.
Qed.

(** Past the end of the input the loop body does not run. *)
Lemma loopBody_out s i st : length s <= i -> loopBody s i st = st.
Proof.
  intros H. unfold loopBody.
  now rewrite (proj2 (nth_error_None s i) H).
Qed.

Lemma loopBody_in s i c st :
  nth_error s i = Some c ->
  loopBody s i st =
  iteration (if 0 <? i then nth_error s (i - 1) else None) c
            (nth_error s (i + 1)) st.
Proof. intros H. unfold loopBody. now rewrite H. Qed.

Lemma wf_scan s k : wf (modeOf (scan s k)).
Proof.
  induction k as [|k IH]; [apply wf_NORMAL|].
  rewrite scan_S. unfold loopBody.
  destruct (nth_error s k); [|assumption].
  rewrite iteration_mode. now apply wf_nextMode.
Qed.

Lemma prevAt_app_length pre tail :
  prevAt (pre ++ tail) (length pre) =
  match rev pre with [] => None | c :: _ => Some c end.
Proof.
  unfold prevAt. destruct pre as [|a pre] using rev_ind; [reflexivity|].
  rewrite rev_app_distr, length_app. simpl.
  replace (length pre + 1 - 1) with (length pre) by lia.
  replace (0 <? length pre + 1) with true by (symmetry; apply Nat.ltb_lt; lia).
  rewrite <- app_assoc. rewrite nth_error_app2 by lia.
  rewrite Nat.sub_diag. reflexivity.
Qed.

(** Running the indexed loop from [length pre] to the end of [pre ++ tail]
    is the structural loop over [tail]. *)
Lemma scan_app pre tail :
  scan (pre ++ tail) (length pre + length tail) =
  runTo (prevAt (pre ++ tail) (length pre)) tail None
        (scan (pre ++ tail) (length pre)).
Proof.
  revert pre. induction tail as [|c tail IH]; intros pre.
  - simpl. now rewrite Nat.add_0_r.
  - specialize (IH (pre ++ [c])).
    rewrite <- app_assoc, length_app in IH. simpl in IH.
    replace (length pre + length (c :: tail))
      with (length pre + 1 + length tail) by (simpl; lia).
    rewrite IH. clear IH.
    replace (length pre + 1) with (length (pre ++ [c]))
      by (now rewrite length_app).
    replace (pre ++ c :: tail) with ((pre ++ [c]) ++ tail) at 1
      by (now rewrite <- app_assoc).
    rewrite prevAt_app_length, rev_app_distr. simpl.
    f_equal.
    rewrite length_app. simpl. rewrite Nat.add_1_r, scan_S.
    rewrite (@loopBody_in _ _ c).
    + f_equal.
      rewrite nth_error_app2 by lia.
      replace (length pre + 1 - length pre) with 1 by lia.
      simpl. destruct tail; reflexivity.
    + rewrite nth_error_app2 by lia. now rewrite Nat.sub_diag.
Qed.

Lemma scan_run s : scan s (length s) = run s.
Proof.
  apply (scan_app [] s).
Qed.

Lemma split_run s : splitSqlStatements s = finish (run s).
Proof. unfold splitSqlStatements. now rewrite scan_run. Qed.

End Scan.

(** ** Positions of the scan *)

Section Positions.

Variable s : jsstring.

Lemma scan_step k c :
  nth_error s k = Some c ->
  scan s (S k) = iteration (prevAt s k) c (nth_error s (k + 1)) (scan s k).
Proof. intros H. rewrite scan_S. now apply loopBody_in. Qed.

Lemma scan_past k : length s <= k -> scan s (S k) = scan s k.
Proof. intros H. rewrite scan_S. now apply loopBody_out. Qed.

Lemma mode_step k c :
  nth_error s k = Some c ->
  modeOf (scan s (S k)) =
  nextMode (prevAt s k) c (nth_error s (k + 1)) (modeOf (scan s k)).
Proof. intros H. rewrite (scan_step _ _ H). apply iteration_mode. Qed.

Lemma is_boundary_cuts k c :
  nth_error s k = Some c -> is_boundary s k = cuts c (modeOf (scan s k)).
Proof.
  intros H. unfold is_boundary. rewrite (scan_step _ _ H), iteration_statements.
  destruct (cuts c (modeOf (scan s k))).
  - rewrite length_app. simpl. apply Nat.eqb_eq. lia.
  - apply Nat.eqb_neq. lia.
Qed.

Lemma is_boundary_past k : length s <= k -> is_boundary s k = false.
Proof.
  intros H. unfold is_boundary. rewrite (scan_past _ H).
  apply Nat.eqb_neq. lia.
Qed.

Lemma boundary_statements k :
  is_boundary s k = false -> statements (scan s (S k)) = statements (scan s k).
Proof.
  intros H. destruct (nth_error s k) as [c|] eqn:E.
  - rewrite (is_boundary_cuts _ _ E) in H.
    rewrite (scan_step _ _ E), iteration_statements. now rewrite H.
  - apply nth_error_None in E. now rewrite scan_past.
Qed.

(** After a boundary the buffer is empty and the mode is normal. *)
Lemma boundary_after k :
  is_boundary s k = true ->
  currentStatement (scan s (S k)) = [] /\ modeOf (scan s (S k)) = NORMAL
  /\ nth_error s k = Some SEMI
  /\ statements (scan s (S k)) =
     statements (scan s k) ++ [trim (currentStatement (scan s k) ++ [SEMI])].
Proof.
  intros H. destruct (nth_error s k) as [c|] eqn:E.
  - rewrite (is_boundary_cuts _ _ E) in H.
    pose proof (wf_cuts _ _ (wf_scan s k) H) as Hm.
    rewrite (scan_step _ _ E), iteration_current, iteration_mode,
      iteration_statements, H.
    rewrite (cuts_nextMode _ _ _ _ H).
    apply cuts_spec in H as [_ [_ ->]]. auto.
  - apply nth_error_None in E. rewrite is_boundary_past in H by assumption.
    discriminate.
Qed.

Lemma firstn_S_nth k c :
  nth_error s k = Some c -> firstn (S k) s = firstn k s ++ [c].
Proof.
  clear. revert k. induction s as [|a l IH]; intros k H.
  - destruct k; discriminate.
  - destruct k; simpl in *.
    + now injection H as ->.
    + f_equal. now apply IH.
Qed.

Lemma noBoundary_spec i n :
  noBoundary s i n = true <->
  forall m, i <= m < i + n -> is_boundary s m = false.
Proof.
  unfold noBoundary. rewrite forallb_forall. split.
  - intros H m Hm. apply negb_true_iff. apply H. apply in_seq. lia.
  - intros H m Hm. apply in_seq in Hm. apply negb_true_iff. now apply H.
Qed.

(** Over a range without boundary, the statements stay and the buffer
    takes every character. *)
Lemma quiet_range i n :
  noBoundary s i n = true -> i + n <= length s ->
  statements (scan s (i + n)) = statements (scan s i)
  /\ currentStatement (scan s (i + n)) =
     currentStatement (scan s i) ++ firstn n (skipn i s).
Proof.
  rewrite noBoundary_spec.
  induction n as [|n IH]; intros H Hlen.
  - rewrite Nat.add_0_r. simpl. now rewrite app_nil_r.
  - destruct IH as [IH1 IH2]; [intros m Hm; apply H; lia | lia |].
    assert (Hb : is_boundary s (i + n) = false) by (apply H; lia).
    replace (i + S n) with (S (i + n)) by lia.
    split.
    + now rewrite (boundary_statements _ Hb).
    + destruct (nth_error s (i + n)) as [c|] eqn:E.
      2:{ apply nth_error_None in E. lia. }
      rewrite (is_boundary_cuts _ _ E) in Hb.
      rewrite (scan_step _ _ E), iteration_current, Hb, IH2.
      rewrite <- app_assoc. f_equal.
      assert (E' : nth_error (skipn i s) n = Some c).
      { rewrite nth_error_skipn. exact E. }
      clear -E'. revert E'. generalize (skipn i s). intros l.
      revert l. induction n as [|n IHn]; intros [|a l] E; try discriminate.
      * simpl in *. now injection E as ->.
      * simpl in *. f_equal. now apply IHn.
Qed.

(** *** Inside a string *)

Lemma unclosedBetween_spec q i k :
  unclosedBetween s q i k = true <->
  forall m, i < m < k -> closesString s q m = false.
Proof.
  unfold unclosedBetween. rewrite forallb_forall. split.
  - intros H m Hm. apply negb_true_iff. apply H. apply in_seq. lia.
  - intros H m Hm. apply in_seq in Hm. apply negb_true_iff. apply H. lia.
Qed.

Lemma opensString_spec i q :
  opensString s i q = true ->
  inString (scan s i) = false /\ inComment (scan s i) = false
  /\ nth_error s i = Some q /\ (q = SQUOTE \/ q = DQUOTE).
Proof.
  unfold opensString. rewrite !andb_true_iff, !negb_true_iff, orb_true_iff,
    !N.eqb_eq.
  intros [[[H1 H2] H3] H4]. repeat split; auto.
  destruct (nth_error s i); simpl in H3; [|discriminate].
  apply N.eqb_eq in H3. now subst.
Qed.

Lemma string_entered i q :
  opensString s i q = true -> modeOf (scan s (S i)) = (true, false, Some q).
Proof.
  intros H. apply opensString_spec in H as [H1 [H2 [H3 H4]]].
  rewrite (mode_step _ _ H3). unfold modeOf. rewrite H1, H2.
  unfold nextMode. destruct H4 as [-> | ->]; reflexivity.
Qed.

Lemma string_kept q k :
  modeOf (scan s k) = (true, false, Some q) ->
  closesString s q k = false ->
  modeOf (scan s (S k)) = (true, false, Some q).
Proof.
  intros Hm Hc. destruct (nth_error s k) as [c|] eqn:E.
  - rewrite (mode_step _ _ E), Hm. unfold nextMode. simpl.
    unfold closesString in Hc. rewrite E in Hc. simpl in Hc.
    simpl. rewrite N.eqb_sym, Hc. reflexivity.
  - apply nth_error_None in E. now rewrite scan_past.
Qed.

(** From the opening quote on, the scan stays in the string as long as
    no unescaped occurrence of the quote is read. *)
Lemma inside_string i q k :
  opensString s i q = true -> i < k -> unclosedBetween s q i k = true ->
  modeOf (scan s k) = (true, false, Some q).
Proof.
  intros Ho Hik Hu. rewrite unclosedBetween_spec in Hu.
  induction k as [|k IH]; [lia|].
  destruct (Nat.eq_dec i k) as [->|Hne].
  - now apply string_entered.
  - apply string_kept.
    + apply IH; [lia|]. intros m Hm. apply Hu. lia.
    + apply Hu. lia.
Qed.

(** *** Inside a line comment *)

Lemma sameLineBetween_spec i k :
  sameLineBetween s i k = true <->
  forall m, i < m < k -> isLineEnd s m = false.
Proof.
  unfold sameLineBetween. rewrite forallb_forall. split.
  - intros H m Hm. apply negb_true_iff. apply H. apply in_seq. lia.
  - intros H m Hm. apply in_seq in Hm. apply negb_true_iff. apply H. lia.
Qed.

Lemma comment_entered i :
  opensComment s i = true ->
  inString (scan s (S i)) = false /\ inComment (scan s (S i)) = true.
Proof.
  unfold opensComment. rewrite !andb_true_iff, negb_true_iff.
  intros [[H1 H2] H3].
  destruct (nth_error s i) as [c|] eqn:E; simpl in H2; [|discriminate].
  apply N.eqb_eq in H2. subst c.
  pose proof (mode_step _ _ E) as Hm. unfold modeOf in Hm.
  rewrite H1 in Hm. unfold nextMode in Hm. simpl in Hm. rewrite H3 in Hm.
  now injection Hm as -> -> _.
Qed.

Lemma comment_kept k :
  inString (scan s k) = false -> inComment (scan s k) = true ->
  isLineEnd s k = false ->
  inString (scan s (S k)) = false /\ inComment (scan s (S k)) = true.
Proof.
  intros H1 H2 Hl. destruct (nth_error s k) as [c|] eqn:E.
  - pose proof (mode_step _ _ E) as Hm. unfold modeOf in Hm.
    rewrite H1, H2 in Hm. unfold nextMode in Hm. simpl in Hm.
    unfold isLineEnd in Hl. rewrite E in Hl. simpl in Hl.
    rewrite (N.eqb_sym c LF), (N.eqb_sym c CR), Hl in Hm.
    destruct ((c =? DASH)%N && eqc DASH (nth_error s (k + 1)));
      now injection Hm as -> -> _.
  - apply nth_error_None in E. now rewrite scan_past.
Qed.

Lemma inside_comment i k :
  opensComment s i = true -> i < k -> sameLineBetween s i k = true ->
  inString (scan s k) = false /\ inComment (scan s k) = true.
Proof.
  intros Ho Hik Hu. rewrite sameLineBetween_spec in Hu.
  induction k as [|k IH]; [lia|].
  destruct (Nat.eq_dec i k) as [->|Hne].
  - now apply comment_entered.
  - destruct IH as [IH1 IH2]; [lia | intros m Hm; apply Hu; lia |].
    apply comment_kept; auto. apply Hu. lia.
Qed.

End Positions.

(** ** The segments behind the statements *)

Section Segments.

Lemma endsWithTerminator_snoc l : endsWithTerminator (l ++ [SEMI]) = true.
Proof. unfold endsWithTerminator. now rewrite rev_app_distr. Qed.

Lemma endsWithTerminator_inv x :
  endsWithTerminator x = true -> exists l, x = l ++ [SEMI].
Proof.
  unfold endsWithTerminator. destruct (rev x) as [|c r] eqn:E; [discriminate|].
  intros H. apply N.eqb_eq in H. subst c. exists (rev r).
  rewrite <- (rev_involutive x), E. reflexivity.
Qed.

Lemma isWhiteSpace_SEMI : isWhiteSpace SEMI = false.
Proof. reflexivity. Qed.

Lemma trim_terminated seg :
  endsWithTerminator seg = true ->
  endsWithTerminator (trim seg) = true /\ trim seg <> [].
Proof.
  intros H. apply endsWithTerminator_inv in H as [l ->].
  rewrite (trim_snoc _ _ isWhiteSpace_SEMI). split.
  - apply endsWithTerminator_snoc.
  - intros E. now apply app_eq_nil in E as [_ E].
Qed.

(** The scanned prefix is the concatenation of the segments pushed so far
    (untrimmed) and of the buffer. *)
Lemma scan_segments s k :
  k <= length s ->
  exists segs,
    firstn k s = concat segs ++ currentStatement (scan s k)
    /\ statements (scan s k) = map trim segs
    /\ Forall (fun seg => endsWithTerminator seg = true) segs.
Proof.
  induction k as [|k IH]; intros Hk.
  - exists []. simpl. auto.
  - destruct IH as [segs [E1 [E2 F]]]; [lia|].
    destruct (nth_error s k) as [c|] eqn:E.
    2:{ apply nth_error_None in E. lia. }
    rewrite (firstn_S_nth _ _ _ E), (scan_step _ _ _ E), E1.
    rewrite iteration_current, iteration_statements.
    destruct (cuts c (modeOf (scan s k))) eqn:Hc.
    + apply cuts_spec in Hc as [_ [_ ->]].
      exists (segs ++ [currentStatement (scan s k) ++ [SEMI]]).
      rewrite concat_app, map_app, E2. simpl.
      rewrite !app_nil_r, app_assoc. repeat split.
      apply Forall_app. split; [assumption|].
      constructor; [apply endsWithTerminator_snoc | constructor].
    + exists segs. rewrite app_assoc. auto.
Qed.

Lemma truthy_true x : truthy x = true <-> x <> [].
Proof. destruct x; simpl; split; congruence. Qed.

Lemma truthy_false x : truthy x = false <-> x = [].
Proof. destruct x; simpl; split; congruence. Qed.

(** The input is the concatenation of terminated segments and of a rest;
    the statements are the trimmed segments, and the trimmed rest unless
    it is blank. *)
Lemma split_segments s :
  exists segs rest,
    s = concat segs ++ rest
    /\ Forall (fun seg => endsWithTerminator seg = true) segs
    /\ ((trim rest <> [] /\ splitSqlStatements s = map trim segs ++ [trim rest])
        \/ (blank rest = true /\ splitSqlStatements s = map trim segs)).
Proof.
  destruct (scan_segments s (length s) (le_n _)) as [segs [E1 [E2 F]]].
  rewrite firstn_all in E1.
  exists segs, (currentStatement (scan s (length s))).
  repeat split; auto.
  unfold splitSqlStatements, finish. rewrite E2.
  destruct (truthy (trim (currentStatement (scan s (length s))))) eqn:T.
  - left. apply truthy_true in T. auto.
  - right. apply truthy_false in T. split; [now apply trim_nil_blank | reflexivity].
Qed.

Lemma in_concat_split (seg : jsstring) segs :
  In seg segs -> exists a b, concat segs = a ++ seg ++ b.
Proof.
  intros H. apply in_split in H as [l1 [l2 ->]].
  exists (concat l1), (concat l2). rewrite concat_app. reflexivity.
Qed.

Lemma Forall_removelast {A} (P : A -> Prop) l :
  Forall P l -> Forall P (removelast l).
Proof.
  induction 1 as [|a l Ha Hl IH]; simpl; [constructor|].
  destruct l; [constructor|]. constructor; assumption.
Qed.

End Segments.

(** ** Splitting the concatenated statements again *)

Section Resplit.

Lemma runTo_cons p c l nx st :
  runTo p (c :: l) nx st =
  runTo (Some c) l nx
        (iteration p c (match l with [] => nx | d :: _ => Some d end) st).
Proof. reflexivity. Qed.

Lemma finish_withMode stmts cur m :
  finish (withMode stmts cur m) =
  stmts ++ (if truthy (trim cur) then [trim cur] else []).
Proof.
  unfold finish. rewrite withMode_statements, withMode_current.
  destruct (truthy (trim cur)); [reflexivity | now rewrite app_nil_r].
Qed.

(** The statements already pushed are a prefix of the result. *)
Lemma finish_runTo_prefix l p nx stmts cur m :
  finish (runTo p l nx (withMode stmts cur m)) =
  stmts ++ finish (runTo p l nx (withMode [] cur m)).
Proof.
  revert p stmts cur m. induction l as [|c l IH]; intros p stmts cur m.
  - simpl. rewrite !finish_withMode. reflexivity.
  - rewrite !runTo_cons, !iteration_eq.
    rewrite !withMode_modeOf, !withMode_statements, !withMode_current.
    destruct (cuts c m).
    + rewrite IH. rewrite (IH _ ([] ++ _)). now rewrite <- app_assoc.
    + apply IH.
Qed.

Lemma emitted_nil p cur m :
  emitted p [] cur m = if truthy (trim cur) then [trim cur] else [].
Proof. unfold emitted. simpl. now rewrite finish_withMode. Qed.

Lemma emitted_cons p c l cur m :
  emitted p (c :: l) cur m =
  if cuts c m
  then trim (cur ++ [c]) :: emitted (Some c) l [] m
  else emitted (Some c) l (cur ++ [c]) (nextMode p c (hd_error l) m).
Proof.
  unfold emitted. rewrite runTo_cons, iteration_eq.
  rewrite withMode_modeOf, withMode_statements, withMode_current.
  destruct (cuts c m).
  - now rewrite finish_runTo_prefix.
  - destruct l; reflexivity.
Qed.

Lemma split_emitted s : splitSqlStatements s = emitted None s [] NORMAL.
Proof. apply split_run. Qed.

(** Whitespace is neither a dash, a quote nor the terminator. *)
Lemma whitespace_plain c :
  isWhiteSpace c = true ->
  (c =? DASH)%N = false /\ (c =? SQUOTE)%N = false
  /\ (c =? DQUOTE)%N = false /\ (c =? SEMI)%N = false.
Proof.
  intros H. repeat split;
    match goal with
    | |- (c =? ?d)%N = false =>
        destruct (N.eqb_spec c d) as [->|]; [discriminate H | reflexivity]
    end.
Qed.

Lemma whitespace_no_cut c m : isWhiteSpace c = true -> cuts c m = false.
Proof.
  intros H. destruct (whitespace_plain c H) as [_ [_ [_ E]]].
  destruct m as [[s cm] q]. unfold cuts. rewrite E. now rewrite andb_false_r.
Qed.

Lemma whitespace_inert p c n :
  isWhiteSpace c = true -> nextMode p c n NORMAL = NORMAL.
Proof.
  intros H. destruct (whitespace_plain c H) as [E1 [E2 [E3 _]]].
  unfold nextMode, NORMAL. simpl. now rewrite E1, E2, E3.
Qed.

(** Over trailing whitespace nothing is pushed. *)
Lemma emitted_blank l p cur m :
  blank l = true -> emitted p l cur m = emitted p [] cur m.
Proof.
  revert p cur m. induction l as [|c l IH]; intros p cur m H; [reflexivity|].
  simpl in H. apply andb_true_iff in H as [Hc Hl].
  rewrite emitted_cons, (whitespace_no_cut c m Hc), (IH _ _ _ Hl).
  rewrite !emitted_nil.
  replace (trim (cur ++ [c])) with (trim cur); [reflexivity|].
  symmetry. apply trim_app_blank_r. simpl. now rewrite Hc.
Qed.

Lemma squeeze_blank p l fresh m : blank l = true -> squeeze p l fresh m = [].
Proof. intros H. destruct l; simpl in *; [reflexivity | now rewrite H]. Qed.

Lemma trimStart_snoc cur c :
  blank cur && isWhiteSpace c = false ->
  trimStart (cur ++ [c]) = trimStart cur ++ [c].
Proof.
  intros H. destruct (blank cur) eqn:B.
  - simpl in H. rewrite trimStart_app_blank, (trimStart_blank cur) by assumption.
    simpl. now rewrite H.
  - now apply trimStart_app_nonblank.
Qed.

(** The statements, concatenated, are the squeezed input. *)
Lemma concat_emitted l p cur m :
  wf m -> (blank cur = true -> m = NORMAL) -> blank l = false ->
  concat (emitted p l cur m) = trimStart cur ++ squeeze p l (blank cur) m.
Proof.
  revert p cur m. induction l as [|c l IH]; intros p cur m W N B;
    [discriminate|].
  cbn [squeeze]. rewrite B, emitted_cons.
  destruct (blank cur && isWhiteSpace c) eqn:F.
  - (* leading whitespace *)
    apply andb_true_iff in F as [Bc Hc].
    rewrite (N Bc) in *.
    rewrite (whitespace_no_cut c NORMAL Hc), (whitespace_inert _ _ _ Hc).
    simpl in B. rewrite Hc in B. simpl in B.
    rewrite IH; [|assumption | reflexivity | assumption].
    rewrite blank_app, Bc. simpl. rewrite Hc. simpl.
    rewrite trimStart_app_blank by assumption. simpl. rewrite Hc.
    rewrite (trimStart_blank cur Bc). reflexivity.
  - destruct (cuts c m) eqn:Hcut.
    + (* boundary *)
      pose proof (wf_cuts _ _ W Hcut) as ->.
      apply cuts_spec in Hcut as [_ [_ ->]].
      rewrite (trim_snoc _ _ isWhiteSpace_SEMI). simpl.
      rewrite <- app_assoc. simpl. do 2 f_equal.
      destruct (blank l) eqn:Bl.
      * rewrite (emitted_blank _ _ _ _ Bl), emitted_nil.
        now rewrite (squeeze_blank _ _ _ _ Bl).
      * rewrite IH; [reflexivity | apply wf_NORMAL | reflexivity | assumption].
    + destruct (blank l) eqn:Bl.
      * (* last character before trailing whitespace *)
        simpl in B. rewrite Bl, andb_true_r in B.
        rewrite (emitted_blank _ _ _ _ Bl), emitted_nil.
        rewrite (squeeze_blank _ _ _ _ Bl).
        rewrite (trim_snoc _ _ B).
        destruct (trimStart cur ++ [c]) eqn:E.
        -- now apply app_eq_nil in E as [_ E].
        -- simpl. now rewrite app_nil_r.
      * rewrite IH; [| now apply wf_nextMode | | first [assumption | reflexivity]].
        -- rewrite blank_app. simpl. rewrite andb_true_r, F.
           rewrite (trimStart_snoc _ _ F). now rewrite <- app_assoc.
        -- rewrite blank_app. simpl. rewrite andb_true_r, F. discriminate.
Qed.

(** The lookahead sees a dash in the squeezed input when it does in the
    input. *)
Lemma squeeze_lookahead p l m :
  eqc DASH (hd_error (squeeze p l false m)) = eqc DASH (hd_error l).
Proof.
  destruct l as [|d l]; [reflexivity|].
  cbn [squeeze]. destruct (blank (d :: l)) eqn:B; [|reflexivity].
  simpl in B. apply andb_true_iff in B as [Hd _].
  destruct (whitespace_plain d Hd) as [E _].
  simpl. now rewrite N.eqb_sym, E.
Qed.

(** The previous character matters in a string only, the next one after a
    dash only. *)
Lemma nextMode_indep p p2 c n n2 m :
  (fst (fst m) = true -> p2 = p) ->
  ((c =? DASH)%N = true -> eqc DASH n2 = eqc DASH n) ->
  nextMode p2 c n2 m = nextMode p c n m.
Proof.
  destruct m as [[s cm] q]. simpl. intros Hp Hn. unfold nextMode.
  destruct s; simpl.
  - now rewrite (Hp eq_refl).
  - destruct (c =? DASH)%N; simpl; [now rewrite (Hn eq_refl) | reflexivity].
Qed.

(** Scanning the squeezed input emits the same statements. *)
Lemma emitted_squeeze l p p2 cur m :
  wf m -> (blank cur = true -> m = NORMAL) ->
  (fst (fst m) = true -> p2 = p) ->
  emitted p2 (squeeze p l (blank cur) m) (trimStart cur) m = emitted p l cur m.
Proof.
  revert p p2 cur m. induction l as [|c l IH]; intros p p2 cur m W N P.
  - simpl. rewrite !emitted_nil. now rewrite trim_trimStart.
  - cbn [squeeze]. destruct (blank (c :: l)) eqn:B.
    + rewrite (emitted_blank _ p cur m B), !emitted_nil.
      now rewrite trim_trimStart.
    + rewrite (emitted_cons p c l).
      destruct (blank cur && isWhiteSpace c) eqn:F.
      * apply andb_true_iff in F as [Bc Hc].
        rewrite (N Bc) in *.
        rewrite (whitespace_no_cut c NORMAL Hc), (whitespace_inert _ _ _ Hc).
        rewrite <- (IH (Some c) p2 (cur ++ [c]) NORMAL);
          [| apply wf_NORMAL | reflexivity | discriminate].
        rewrite blank_app, Bc. simpl. rewrite Hc. simpl.
        rewrite trimStart_app_blank by assumption. simpl. rewrite Hc.
        rewrite (trimStart_blank cur Bc). reflexivity.
      * rewrite emitted_cons.
        destruct (cuts c m) eqn:Hcut.
        -- pose proof (wf_cuts _ _ W Hcut) as ->.
           apply cuts_spec in Hcut as [_ [_ ->]].
           rewrite !(trim_snoc _ _ isWhiteSpace_SEMI).
           rewrite trimStart_idem. f_equal.
           apply (IH (Some SEMI) (Some SEMI) [] NORMAL);
                [apply wf_NORMAL | reflexivity | reflexivity].
        -- rewrite <- (trimStart_snoc _ _ F).
           replace false with (blank (cur ++ [c]))
             by (rewrite blank_app; simpl; now rewrite andb_true_r).
           rewrite (nextMode_indep p p2 c (hd_error l)); [| assumption |].
           ++ apply IH; [now apply wf_nextMode | | reflexivity].
              rewrite blank_app. simpl. rewrite andb_true_r, F. discriminate.
           ++ intros _.
              replace (blank (cur ++ [c])) with false
                by (rewrite blank_app; simpl; now rewrite andb_true_r).
              apply squeeze_lookahead.
Qed.

End Resplit.

(** * Properties of the splitter *)

(** ** C1: consecutive terminators *)

(** C1, as stated, fails: on [A;;B;] the splitter does not return
    [A;], [B;]. *)
Lemma C1_empty_statement_not_dropped :
  splitSqlStatements (js "A;;B;") <> [js "A;"; js "B;"].
Proof. vm_compute. discriminate. Qed.

(** C1, amended: on [A;;B;] the splitter returns [A;], [;], [B;].  The buffer
    pushed at a boundary contains the terminator itself, so the statement
    between two consecutive boundaries is the one-character statement [;];
    every emitted statement is non-empty. *)
Theorem C1_consecutive_terminators :
  splitSqlStatements (js "A;;B;") = [js "A;"; js ";"; js "B;"]
  /\ (forall s k,
        is_boundary s k = true -> is_boundary s (S k) = true ->
        statements (scan s (S (S k))) = statements (scan s (S k)) ++ [[SEMI]])
  /\ (forall s, Forall (fun x => x <> []) (splitSqlStatements s)).
Proof.
  split; [reflexivity|]. split.
  - intros s k H1 H2.
    apply boundary_after in H1 as [Hc _].
    apply boundary_after in H2 as [_ [_ [_ Hs]]].
    rewrite Hs, Hc. reflexivity.
  - intros s.
    destruct (split_segments s) as [segs [rest [_ [F [[T ->]|[_ ->]]]]]].
    + apply Forall_app. split.
      * apply Forall_map. eapply Forall_impl; [|exact F].
        intros seg H. now apply trim_terminated.
      * constructor; [assumption | constructor].
    + apply Forall_map. eapply Forall_impl; [|exact F].
      intros seg H. now apply trim_terminated.
Qed.

(** The two boundaries of [A;;B;] at positions 1 and 2. *)
Lemma C1_consecutive_terminators_witness :
  statements (scan (js "A;;B;") 3) = statements (scan (js "A;;B;") 2) ++ [[SEMI]].
Proof.
  apply (proj1 (proj2 C1_consecutive_terminators) (js "A;;B;") 1); reflexivity.
Defined.

(** ** C2: reconstruction of the input *)

(** C2, as stated, fails: the only statement of [A;] is [A;] itself, and with
    the terminator appended once more it reads [A;;], which does not
    reconstruct [A;], even up to trimmed whitespace. *)
Lemma C2_reappended_terminator_differs :
  concat (reappendTerminator (splitSqlStatements (js "A;"))) = js "A;;"
  /\ ~ sameModuloTrim (reappendTerminator (splitSqlStatements (js "A;")))
                      (js "A;").
Proof.
  split; [reflexivity|].
  intros [segs [rest [E [M _]]]].
  change (reappendTerminator (splitSqlStatements (js "A;"))) with [js "A;;"] in M.
  destruct segs as [|seg [|seg' segs]]; try discriminate.
  injection M as M. simpl in E. rewrite app_nil_r in E.
  pose proof (trim_length seg) as L. rewrite M in L.
  apply (f_equal (@length Char)) in E. rewrite length_app in E.
  simpl in E, L. lia.
Qed.

(** C2, amended: the emitted statements already carry their terminator, and
    as they are they reconstruct the input up to the whitespace trimmed
    around each statement: the input is a concatenation of segments whose
    trimmed forms are the statements, followed by whitespace only. *)
Theorem C2_statements_reconstruct_input :
  forall s, sameModuloTrim (splitSqlStatements s) s.
Proof.
  intros s.
  destruct (split_segments s) as [segs [rest [E [_ [[T ->]|[B ->]]]]]].
  - exists (segs ++ [rest]), []. rewrite concat_app, map_app. simpl.
    rewrite !app_nil_r. auto.
  - exists segs, rest. auto.
Qed.

(** ** C3: terminators inside strings *)

(** C3: after a quote [q] opens a string at position [i], a terminator at a
    position [k] reached before any unescaped [q] is not a statement
    boundary; [INSERT INTO t VALUES ('a;b');] is one statement. *)
Theorem C3_terminator_in_string :
  (forall s i q k,
     opensString s i q = true -> i < k -> unclosedBetween s q i k = true ->
     nth_error s k = Some SEMI -> is_boundary s k = false)
  /\ splitSqlStatements (js "INSERT INTO t VALUES ('a;b');")
     = [js "INSERT INTO t VALUES ('a;b');"].
Proof.
  split; [|reflexivity].
  intros s i q k Ho Hik Hu Hk.
  rewrite (is_boundary_cuts _ _ _ Hk), (inside_string _ _ _ _ Ho Hik Hu).
  reflexivity.
Qed.

(** The terminator at position 24, in the string opened at position 22. *)
Lemma C3_terminator_in_string_witness :
  is_boundary (js "INSERT INTO t VALUES ('a;b');") 24 = false.
Proof.
  apply (proj1 C3_terminator_in_string _ 22 SQUOTE 24); [reflexivity | lia | reflexivity | reflexivity].
Defined.

(** ** C4: terminators inside line comments *)

(** C4: after [--] opens a comment at position [i] outside a string, a
    terminator at a position [k] reached before any newline or carriage
    return is not a statement boundary; the commented example is one
    statement, which keeps the comment line. *)
Theorem C4_terminator_in_comment :
  (forall s i k,
     opensComment s i = true -> i < k -> sameLineBetween s i k = true ->
     nth_error s k = Some SEMI -> is_boundary s k = false)
  /\ splitSqlStatements
       (js "-- comment ; with terminator" ++ [LF] ++ js "SELECT 1;")
     = [js "-- comment ; with terminator" ++ [LF] ++ js "SELECT 1;"].
Proof.
  split; [|reflexivity].
  intros s i k Ho Hik Hu Hk.
  destruct (inside_comment _ _ _ Ho Hik Hu) as [H1 H2].
  rewrite (is_boundary_cuts _ _ _ Hk). unfold modeOf, cuts. now rewrite H1, H2.
Qed.

(** The terminator at position 11, in the comment opened at position 0. *)
Lemma C4_terminator_in_comment_witness :
  is_boundary (js "-- comment ; with terminator" ++ [LF] ++ js "SELECT 1;") 11
  = false.
Proof.
  apply (proj1 C4_terminator_in_comment _ 0 11); [reflexivity | lia | reflexivity | reflexivity].
Defined.

(** ** C5: shape of the statements *)

(** C5: every statement is non-empty and is the trimmed form of a contiguous
    substring of the input (that substring is the statement between two
    runs of whitespace), and every statement except possibly the last ends
    with the terminator. *)
Theorem C5_statements_are_trimmed_substrings :
  forall s,
    Forall (fun x => x <> []
                     /\ exists a sub b,
                          s = a ++ sub ++ b /\ x = trim sub
                          /\ exists wa wb, sub = wa ++ x ++ wb
                               /\ blank wa = true /\ blank wb = true)
           (splitSqlStatements s)
    /\ Forall (fun x => endsWithTerminator x = true)
              (removelast (splitSqlStatements s)).
Proof.
  intros s.
  destruct (split_segments s) as [segs [rest [E [F H]]]].
  assert (Hsegs : Forall (fun x => x <> []
                     /\ exists a sub b,
                          s = a ++ sub ++ b /\ x = trim sub
                          /\ exists wa wb, sub = wa ++ x ++ wb
                               /\ blank wa = true /\ blank wb = true)
                    (map trim segs)).
  { apply Forall_map. apply Forall_forall. intros seg Hin.
    rewrite Forall_forall in F. split.
    - now apply trim_terminated, F.
    - destruct (in_concat_split _ _ Hin) as [a [b Hc]].
      exists a, seg, (b ++ rest). rewrite E, Hc.
      rewrite <- !app_assoc. repeat split. apply trim_split. }
  assert (Hterm : Forall (fun x => endsWithTerminator x = true) (map trim segs)).
  { apply Forall_map. eapply Forall_impl; [|exact F].
    intros seg Hs. now apply trim_terminated. }
  destruct H as [[T ->]|[B ->]].
  - split.
    + apply Forall_app. split; [assumption|].
      constructor; [|constructor]. split; [assumption|].
      exists (concat segs), rest, []. rewrite app_nil_r.
      repeat split; [assumption | apply trim_split].
    + now rewrite removelast_last.
  - split; [assumption|]. now apply Forall_removelast.
Qed.

(** ** C6: escaped quotes *)

(** C6: in a string, reading the opening quote character right after a
    backslash keeps the scan in the string; [SELECT 'it\'s';] is one
    statement. *)
Theorem C6_escaped_quote_keeps_string :
  (forall s i,
     inString (scan s i) = true ->
     nth_error s i = stringChar (scan s i) ->
     prevAt s i = Some BACKSLASH ->
     inString (scan s (S i)) = true
     /\ stringChar (scan s (S i)) = stringChar (scan s i))
  /\ splitSqlStatements (js "SELECT 'it\'s';") = [js "SELECT 'it\'s';"].
Proof.
  split; [|reflexivity].
  intros s i Hs Hc Hp.
  pose proof (wf_scan s i) as W. unfold modeOf, wf in W. rewrite Hs in W.
  destruct W as [W _]. destruct (W eq_refl) as [Hcm Hq].
  destruct (nth_error s i) as [c|] eqn:E.
  - pose proof (mode_step _ _ _ E) as Hm. unfold modeOf in Hm.
    rewrite Hs, Hcm, Hp in Hm. unfold nextMode in Hm. simpl in Hm.
    rewrite andb_false_r in Hm. now injection Hm as -> _ ->.
  - destruct Hq as [Hq|Hq]; rewrite Hq in Hc; discriminate.
Qed.

(** The quote at position 11, after the backslash at position 10. *)
Lemma C6_escaped_quote_keeps_string_witness :
  inString (scan (js "SELECT 'it\'s';") 12) = true
  /\ stringChar (scan (js "SELECT 'it\'s';") 12)
     = stringChar (scan (js "SELECT 'it\'s';") 11).
Proof.
  apply (proj1 C6_escaped_quote_keeps_string (js "SELECT 'it\'s';") 11);
    reflexivity.
Defined.

(** ** C7: empty input and trailing content *)

(** C7: the empty input has no statement; when the input is [pre ++ tail]
    with [pre] empty or ended by the last boundary, and [tail] is not blank,
    the trimmed [tail] is emitted as the final statement; [SELECT 1] is
    emitted as it is. *)
Theorem C7_trailing_content_emitted :
  splitSqlStatements [] = []
  /\ (forall pre tail,
        pre = [] \/ is_boundary (pre ++ tail) (length pre - 1) = true ->
        noBoundary (pre ++ tail) (length pre) (length tail) = true ->
        blank tail = false ->
        splitSqlStatements (pre ++ tail) =
        statements (scan (pre ++ tail) (length pre)) ++ [trim tail])
  /\ splitSqlStatements (js "SELECT 1") = [js "SELECT 1"].
Proof.
  split; [reflexivity|]. split; [|reflexivity].
  intros pre tail Hpre Hq Hb.
  assert (Hcur : currentStatement (scan (pre ++ tail) (length pre)) = []).
  { destruct pre as [|a pre]; [reflexivity|].
    destruct Hpre as [Hpre|Hpre]; [discriminate|].
    apply boundary_after in Hpre as [Hc _].
    simpl in Hc. rewrite Nat.sub_0_r in Hc. exact Hc. }
  destruct (quiet_range _ _ _ Hq) as [Hs Hc].
  { rewrite length_app. lia. }
  unfold splitSqlStatements, finish.
  rewrite length_app, Hs, Hc, Hcur, skipn_app, skipn_all, Nat.sub_diag.
  simpl. rewrite firstn_all.
  destruct (truthy (trim tail)) eqn:T; [reflexivity|].
  apply truthy_false, trim_nil_blank in T. congruence.
Qed.

(** The content after the boundary at position 1. *)
Lemma C7_trailing_content_emitted_witness :
  splitSqlStatements (js "A;" ++ js " B C ") =
  statements (scan (js "A;" ++ js " B C ") 2) ++ [js "B C"].
Proof.
  apply (proj1 (proj2 C7_trailing_content_emitted) (js "A;") (js " B C "));
    [right; reflexivity | reflexivity | reflexivity].
Defined.

(** ** C8: splitting again *)

(** C8: splitting the concatenation of the emitted statements gives the same
    statements. *)
Theorem C8_resplit_idempotent :
  forall s,
    splitSqlStatements (concat (splitSqlStatements s)) = splitSqlStatements s.
Proof.
  intros s. rewrite (split_emitted s).
  destruct (blank s) eqn:B.
  - rewrite (emitted_blank _ _ _ _ B), emitted_nil. reflexivity.
  - rewrite (concat_emitted _ _ _ _ wf_NORMAL (fun _ => eq_refl) B).
    rewrite split_emitted.
    apply (emitted_squeeze s None None [] NORMAL wf_NORMAL (fun _ => eq_refl)).
    discriminate.
Qed.

(** ** C9: string and comment mode exclude each other *)

(** C9: at every position of the scan at most one of [inString] and
    [inComment] is true; an iteration enters a comment only when not in a
    string, and enters a string only when not in a comment. *)
Theorem C9_string_comment_exclusive :
  (forall s k, inString (scan s k) && inComment (scan s k) = false)
  /\ (forall p c n st,
        inComment st = false -> inComment (iteration p c n st) = true ->
        inString st = false)
  /\ (forall p c n st,
        inString st = false -> inString (iteration p c n st) = true ->
        inComment st = false).
Proof.
  split; [|split].
  - intros s k. pose proof (wf_scan s k) as W. unfold wf, modeOf in W.
    destruct (inString (scan s k)); [|reflexivity].
    destruct W as [W _]. now destruct (W eq_refl) as [-> _].
  - intros p c n st H1 H2.
    pose proof (iteration_mode p c n st) as Hm. unfold modeOf in Hm.
    rewrite H1, H2 in Hm. unfold nextMode in Hm.
    destruct (inString st); [|reflexivity]. simpl in Hm.
    destruct (eqc c (stringChar st) && negb (eqc BACKSLASH p)); discriminate.
  - intros p c n st H1 H2.
    pose proof (iteration_mode p c n st) as Hm. unfold modeOf in Hm.
    rewrite H1, H2 in Hm. unfold nextMode in Hm.
    destruct (inComment st); [|reflexivity]. simpl in Hm.
    destruct ((c =? DASH)%N && eqc DASH n); [discriminate|].
    destruct ((c =? LF)%N || (c =? CR)%N); discriminate.
Qed.

(** Entering a comment at position 2, and a string at position 0. *)
Lemma C9_string_comment_exclusive_witness :
  inString (scan (js "a -- b") 2) = false
  /\ inComment (scan (js "'a' -- b") 0) = false.
Proof.
  split.
  - apply (proj1 (proj2 C9_string_comment_exclusive) (Some 32%N) DASH (Some DASH)
             (scan (js "a -- b") 2)); reflexivity.
  - apply (proj2 (proj2 C9_string_comment_exclusive) None SQUOTE (Some 97%N)
             (scan (js "'a' -- b") 0)); reflexivity.
Defined.

(** ** C10: unclosed strings *)

(** C10: when the quote [q] read after [pre] opens a string and no unescaped
    [q] follows, no later terminator is a boundary: the buffer at the quote
    extended by the rest of the input is emitted, trimmed, as the final
    statement, whatever the rest contains (newlines included). *)
Theorem C10_unclosed_string_runs_to_end :
  (forall pre q body,
     opensString (pre ++ q :: body) (length pre) q = true ->
     unclosedBetween (pre ++ q :: body) q (length pre)
                     (length (pre ++ q :: body)) = true ->
     noBoundary (pre ++ q :: body) (length pre) (S (length body)) = true
     /\ splitSqlStatements (pre ++ q :: body) =
        statements (scan (pre ++ q :: body) (length pre))
        ++ [trim (currentStatement (scan (pre ++ q :: body) (length pre))
                  ++ q :: body)])
  /\ splitSqlStatements (js "a; 'b;" ++ [LF] ++ js "c; ")
     = [js "a;"; js "'b;" ++ [LF] ++ js "c;"].
Proof.
  split; [|reflexivity].
  intros pre q body Ho Hu.
  set (s := pre ++ q :: body) in *.
  assert (Hlen : length s = length pre + S (length body)).
  { unfold s. rewrite length_app. reflexivity. }
  assert (Hq : noBoundary s (length pre) (S (length body)) = true).
  { apply noBoundary_spec. intros m Hm.
    destruct (nth_error s m) as [c|] eqn:E.
    2:{ apply nth_error_None in E. lia. }
    rewrite (is_boundary_cuts _ _ _ E).
    destruct (Nat.eq_dec m (length pre)) as [->|Hne].
    - apply opensString_spec in Ho as [_ [_ [Hn Hquote]]].
      rewrite Hn in E. injection E as <-.
      destruct (modeOf (scan s (length pre))) as [[a b] d]. unfold cuts.
      destruct Hquote as [-> | ->];
        now rewrite andb_false_r.
    - rewrite (inside_string s (length pre) q m); [reflexivity | assumption | lia |].
      apply unclosedBetween_spec. intros j Hj.
      rewrite unclosedBetween_spec in Hu. apply Hu. lia. }
  split; [exact Hq|].
  destruct (quiet_range _ _ _ Hq) as [Hs Hc]; [lia|].
  unfold splitSqlStatements, finish. rewrite Hlen, Hs, Hc.
  replace (firstn (S (length body)) (skipn (length pre) s)) with (q :: body).
  2:{ unfold s. rewrite skipn_app, skipn_all, Nat.sub_diag. simpl.
      now rewrite firstn_all. }
  destruct (truthy _) eqn:T; [reflexivity|].
  apply truthy_false, trim_nil_blank in T.
  rewrite blank_app in T. simpl in T.
  apply opensString_spec in Ho as [_ [_ [_ [-> | ->]]]];
    simpl in T; now rewrite andb_false_r in T.
Qed.

(** The string opened at position 3 and never closed. *)
Lemma C10_unclosed_string_runs_to_end_witness :
  noBoundary (js "a; " ++ SQUOTE :: js "b;c") 3 4 = true
  /\ splitSqlStatements (js "a; " ++ SQUOTE :: js "b;c") =
     statements (scan (js "a; " ++ SQUOTE :: js "b;c") 3)
     ++ [trim (currentStatement (scan (js "a; " ++ SQUOTE :: js "b;c") 3)
               ++ SQUOTE :: js "b;c")].
Proof.
  apply (proj1 C10_unclosed_string_runs_to_end (js "a; ") SQUOTE (js "b;c"));
    reflexivity.
Defined.

(** * Further properties: the splitter and the code around it *)

(** ** Runs of the loop over a part of the input *)

Section Runs.

Lemma trim_blank_nil w : blank w = true -> trim w = [].
Proof. intros H. unfold trim. now rewrite trimStart_blank. Qed.

Lemma lastOr_snoc p l c : lastOr p (l ++ [c]) = Some c.
Proof. unfold lastOr. now rewrite rev_app_distr. Qed.

Lemma lastOr_cons p c l : lastOr p (c :: l) = lastOr (Some c) l.
Proof.
  unfold lastOr. simpl. destruct (rev l) as [|d r] eqn:E; reflexivity.
Qed.

Lemma lastOr_app p a b : lastOr p (a ++ b) = lastOr (lastOr p a) b.
Proof.
  revert p. induction a as [|c a IH]; intros p; [reflexivity|].
  simpl. rewrite !lastOr_cons. apply IH.
Qed.

Lemma lookahead_app a b nx :
  lookahead (a ++ b) nx = lookahead a (lookahead b nx).
Proof. destruct a; reflexivity. Qed.

Lemma runTo_app p l1 l2 nx st :
  runTo p (l1 ++ l2) nx st =
  runTo (lastOr p l1) l2 nx (runTo p l1 (lookahead l2 nx) st).
Proof.
  revert p st. induction l1 as [|c l1 IH]; intros p st; [reflexivity|].
  simpl. rewrite IH, lastOr_cons. f_equal.
  destruct l1; reflexivity.
Qed.

(** When no boundary is met, the run only extends the buffer. *)
Lemma modeRun_runTo l p nx m m' stmts cur :
  modeRun p l nx m = Some m' ->
  runTo p l nx (withMode stmts cur m) = withMode stmts (cur ++ l) m'.
Proof.
  revert p m cur. induction l as [|c l IH]; intros p m cur H.
  - simpl in *. injection H as <-. now rewrite app_nil_r.
  - cbn [modeRun] in H. destruct (cuts c m) eqn:Hc; [discriminate|].
    rewrite runTo_cons, iteration_eq, withMode_modeOf, Hc.
    rewrite withMode_statements, withMode_current.
    rewrite (IH _ _ _ H). now rewrite <- app_assoc.
Qed.

Lemma modeRun_app a b p nx m :
  modeRun p (a ++ b) nx m =
  match modeRun p a (lookahead b nx) m with
  | Some m1 => modeRun (lastOr p a) b nx m1
  | None => None
  end.
Proof.
  revert p m. induction a as [|c a IH]; intros p m; [reflexivity|].
  cbn [app modeRun]. destruct (cuts c m); [reflexivity|].
  rewrite IH, lastOr_cons, lookahead_app. reflexivity.
Qed.

Lemma modeRun_wf l p nx m m' : wf m -> modeRun p l nx m = Some m' -> wf m'.
Proof.
  revert p m. induction l as [|c l IH]; intros p m W H.
  - simpl in H. now injection H as <-.
  - cbn [modeRun] in H. destruct (cuts c m); [discriminate|].
    eapply IH; [|exact H]. now apply wf_nextMode.
Qed.

(** Outside a string the previous character is not looked at. *)
Lemma modeRun_prev l p p' nx m :
  fst (fst m) = false -> modeRun p l nx m = modeRun p' l nx m.
Proof.
  intros H. destruct l as [|c l]; [reflexivity|]. cbn [modeRun].
  rewrite (nextMode_indep p p' c (lookahead l nx) (lookahead l nx) m);
    [reflexivity | rewrite H; discriminate | reflexivity].
Qed.

(** A run that ends outside strings and comments when a dash follows ends
    the same way whatever follows. *)
Lemma modeRun_any_lookahead l p nx m m' :
  modeRun p l (Some DASH) m = Some m' ->
  fst (fst m') = false -> snd (fst m') = false ->
  modeRun p l nx m = Some m'.
Proof.
  revert p m. induction l as [|c l IH]; intros p m H Hs Hc; [exact H|].
  cbn [modeRun] in *. destruct (cuts c m); [discriminate|].
  destruct l as [|d l].
  - simpl in *. injection H as <-. f_equal.
    destruct m as [[s cm] q]. unfold nextMode in *.
    destruct (negb s && (c =? DASH)%N) eqn:E; simpl in *.
    + discriminate.
    + reflexivity.
  - apply IH; assumption.
Qed.

Lemma transparent_spec l :
  transparent l = true -> forall p nx, modeRun p l nx NORMAL = Some NORMAL.
Proof.
  unfold transparent. intros H p nx.
  destruct (modeRun None l (Some DASH) NORMAL) as [[[s cm] q]|] eqn:E;
    [|discriminate].
  apply andb_true_iff in H as [Hs Hc]. apply negb_true_iff in Hs, Hc. subst.
  pose proof (modeRun_wf _ _ _ _ _ wf_NORMAL E) as [_ W].
  rewrite (W eq_refl) in E.
  rewrite (modeRun_prev l p None nx NORMAL eq_refl).
  now apply modeRun_any_lookahead.
Qed.

Lemma transparent_intro l :
  modeRun None l (Some DASH) NORMAL = Some NORMAL -> transparent l = true.
Proof. unfold transparent. now intros ->. Qed.

Lemma transparent_app a b :
  transparent a = true -> transparent b = true -> transparent (a ++ b) = true.
Proof.
  intros Ha Hb. apply transparent_intro.
  rewrite modeRun_app, (transparent_spec _ Ha).
  now apply transparent_spec.
Qed.

Lemma blank_transparent w : blank w = true -> transparent w = true.
Proof.
  intros H. apply transparent_intro.
  generalize (@None Char). induction w as [|c w IH]; intros p; [reflexivity|].
  simpl in H. apply andb_true_iff in H as [Hc Hw].
  cbn [modeRun]. rewrite (whitespace_no_cut c NORMAL Hc).
  rewrite (whitespace_inert _ _ _ Hc). now apply IH.
Qed.

Lemma transparent_join sep l :
  transparent sep = true -> forallb transparent l = true ->
  transparent (join sep l) = true.
Proof.
  intros Hs. induction l as [|x l IH]; intros H; [reflexivity|].
  simpl in H. apply andb_true_iff in H as [Hx Hl].
  destruct l as [|y l]; [exact Hx|].
  change (join sep (x :: y :: l)) with (x ++ sep ++ join sep (y :: l)).
  apply transparent_app; [assumption|]. apply transparent_app; auto.
Qed.

(** The statements emitted from a transparent text on are those of what
    follows it, with the text in the buffer. *)
Lemma emitted_transparent l rest p cur :
  transparent l = true ->
  emitted p (l ++ rest) cur NORMAL = emitted (lastOr p l) rest (cur ++ l) NORMAL.
Proof.
  intros H. unfold emitted. rewrite runTo_app.
  now rewrite (modeRun_runTo l p _ NORMAL NORMAL [] cur (transparent_spec _ H _ _)).
Qed.

Lemma emitted_terminator rest p cur :
  emitted p (SEMI :: rest) cur NORMAL =
  trim (cur ++ [SEMI]) :: emitted (Some SEMI) rest [] NORMAL.
Proof. now rewrite emitted_cons. Qed.

(** A transparent text, its terminator, and what follows. *)
Lemma emitted_statement l rest p cur :
  transparent l = true -> blank cur = true ->
  emitted p (l ++ SEMI :: rest) cur NORMAL =
  trim (l ++ [SEMI]) :: emitted (Some SEMI) rest [] NORMAL.
Proof.
  intros H B. rewrite (emitted_transparent _ _ _ _ H), emitted_terminator.
  now rewrite <- app_assoc, trim_app_blank_l.
Qed.

(** The scan of a middle part of the input is the structural loop over it. *)
Lemma scan_range pre mid rest :
  scan (pre ++ mid ++ rest) (length pre + length mid) =
  runTo (lastOr None pre) mid (lookahead rest None)
        (scan (pre ++ mid ++ rest) (length pre)).
Proof.
  revert rest. induction mid as [|c mid IH] using rev_ind; intros rest.
  - simpl. now rewrite Nat.add_0_r.
  - rewrite runTo_app. cbn [runTo lookahead].
    replace ((mid ++ [c]) ++ rest) with (mid ++ c :: rest)
      by (now rewrite <- app_assoc).
    specialize (IH (c :: rest)). cbn [lookahead] in IH. rewrite <- IH.
    rewrite length_app. simpl length.
    replace (length pre + (length mid + 1)) with (S (length pre + length mid))
      by lia.
    assert (E : nth_error (pre ++ mid ++ c :: rest) (length pre + length mid)
                = Some c).
    { rewrite app_assoc, nth_error_app2 by (rewrite length_app; lia).
      rewrite length_app, Nat.sub_diag. reflexivity. }
    rewrite (scan_step _ _ _ E). f_equal.
    + pose proof (prevAt_app_length (pre ++ mid) (c :: rest)) as P.
      rewrite <- app_assoc, length_app in P. rewrite P.
      rewrite <- lastOr_app. reflexivity.
    + rewrite app_assoc, nth_error_app2 by (rewrite length_app; lia).
      rewrite length_app.
      replace (length pre + length mid + 1 - (length pre + length mid))
        with 1 by lia.
      destruct rest; reflexivity.
Qed.

Lemma modeOf_eta st :
  st = withMode (statements st) (currentStatement st) (modeOf st).
Proof. destruct st. reflexivity. Qed.

(** A transparent part of the input read outside strings and comments holds
    no boundary and is left outside strings and comments. *)
Lemma scan_transparent pre mid rest :
  modeOf (scan (pre ++ mid ++ rest) (length pre)) = NORMAL ->
  transparent mid = true ->
  scan (pre ++ mid ++ rest) (length pre + length mid) =
  withMode (statements (scan (pre ++ mid ++ rest) (length pre)))
           (currentStatement (scan (pre ++ mid ++ rest) (length pre)) ++ mid)
           NORMAL.
Proof.
  intros Hm Ht. rewrite scan_range.
  rewrite (modeOf_eta (scan (pre ++ mid ++ rest) (length pre))) at 1.
  rewrite Hm. apply modeRun_runTo. now apply transparent_spec.
Qed.

End Runs.

(** ** What the body of the loop looks at *)

Section Independence.

Lemma iteration_indep p p' c n n' st :
  (inString st = true -> p' = p) ->
  ((c =? DASH)%N = true -> eqc DASH n' = eqc DASH n) ->
  iteration p' c n' st = iteration p c n st.
Proof.
  intros Hp Hn. rewrite !iteration_eq.
  now rewrite (nextMode_indep p p' c n n' (modeOf st) Hp Hn).
Qed.

(** What follows the input matters only as a dash after a dash. *)
Lemma runTo_lookahead l p nx nx' st :
  eqc DASH nx' = eqc DASH nx -> runTo p l nx' st = runTo p l nx st.
Proof.
  intros H. revert p st. induction l as [|c l IH]; intros p st; [reflexivity|].
  rewrite !runTo_cons. destruct l as [|d l].
  - simpl. now rewrite (iteration_indep p p c nx nx' st).
  - apply IH.
Qed.

Lemma runTo_lookahead_last (l : jsstring) (c : Char) p nx nx' st :
  (c =? DASH)%N = false ->
  runTo p (l ++ [c]) nx' st = runTo p (l ++ [c]) nx st.
Proof.
  intros H. rewrite !runTo_app. cbn [runTo lookahead].
  apply iteration_indep; [reflexivity|]. rewrite H. discriminate.
Qed.

(** What precedes the input matters only inside a string. *)
Lemma runTo_prev l p p' nx st :
  inString st = false -> runTo p' l nx st = runTo p l nx st.
Proof.
  intros H. destruct l as [|c l]; [reflexivity|]. rewrite !runTo_cons.
  f_equal. apply iteration_indep; [|reflexivity].
  rewrite H. discriminate.
Qed.

Lemma emitted_prev l p p' cur :
  emitted p' l cur NORMAL = emitted p l cur NORMAL.
Proof. unfold emitted. now rewrite (runTo_prev l p p'). Qed.

(** Whitespace at the start of the buffer does not show in the statements. *)
Lemma emitted_blank_buffer l p w cur m :
  blank w = true -> emitted p l (w ++ cur) m = emitted p l cur m.
Proof.
  intros B. revert p cur m. induction l as [|c l IH]; intros p cur m.
  - rewrite !emitted_nil. now rewrite trim_app_blank_l.
  - rewrite !emitted_cons. destruct (cuts c m).
    + now rewrite <- app_assoc, trim_app_blank_l.
    + rewrite <- app_assoc. apply IH.
Qed.

(** Whitespace at the end of the input does not show in the statements. *)
Lemma emitted_app_blank l w p cur m :
  blank w = true -> emitted p (l ++ w) cur m = emitted p l cur m.
Proof.
  intros B. unfold emitted. rewrite runTo_app.
  rewrite (runTo_lookahead l p None (lookahead w None)).
  2:{ destruct w as [|d w]; [reflexivity|]. simpl in B.
      apply andb_true_iff in B as [Hd _].
      destruct (whitespace_plain d Hd) as [E _].
      simpl. now rewrite N.eqb_sym, E. }
  set (st := runTo p l None (withMode [] cur m)).
  rewrite (modeOf_eta st), finish_runTo_prefix.
  change (finish (runTo (lastOr p l) w None
                    (withMode [] (currentStatement st) (modeOf st))))
    with (emitted (lastOr p l) w (currentStatement st) (modeOf st)).
  rewrite (emitted_blank _ _ _ _ B), emitted_nil.
  now rewrite finish_withMode.
Qed.

Lemma modeOf_run_normal s k c :
  modeOf (scan s k) = NORMAL -> nth_error s k = Some c ->
  (c =? SQUOTE)%N = false -> (c =? DQUOTE)%N = false -> (c =? DASH)%N = false ->
  modeOf (scan s (S k)) = NORMAL.
Proof.
  intros Hm E H1 H2 H3. rewrite (mode_step _ _ _ E), Hm.
  unfold nextMode, NORMAL. simpl. now rewrite H1, H2, H3.
Qed.

End Independence.

(** ** String literals under the scan *)

Section Literals.

Lemma escapeQuotes_cons c v :
  escapeQuotes (c :: v) =
  (if (c =? SQUOTE)%N then [SQUOTE; SQUOTE] else [c]) ++ escapeQuotes v.
Proof. reflexivity. Qed.

Lemma escapeQuotes_noQuote v : noQuote v = true -> escapeQuotes v = v.
Proof.
  induction v as [|c v IH]; [reflexivity|]. intros H. simpl in H.
  apply andb_true_iff in H as [Hc Hv]. apply negb_true_iff in Hc.
  rewrite escapeQuotes_cons, Hc, (IH Hv). reflexivity.
Qed.

(** In a string opened by a single quote, the escaped value and the closing
    quote bring the scan back outside. *)
Lemma modeRun_escaped (v : jsstring) (p : Char) nx :
  safeAfter p v = true ->
  modeRun (Some p) (escapeQuotes v ++ [SQUOTE]) nx IN_SQUOTE = Some NORMAL.
Proof.
  revert p. induction v as [|c v IH]; intros p H.
  - simpl in H. apply negb_true_iff in H.
    cbn [escapeQuotes flat_map app modeRun lookahead].
    unfold cuts, nextMode, IN_SQUOTE. simpl.
    rewrite (N.eqb_sym BACKSLASH p), H. reflexivity.
  - cbn [safeAfter] in H. apply andb_true_iff in H as [Hp Hv].
    rewrite escapeQuotes_cons. destruct (c =? SQUOTE)%N eqn:Hc.
    + apply N.eqb_eq in Hc. subst c. apply negb_true_iff in Hp.
      cbn [app modeRun lookahead].
      replace (cuts SQUOTE IN_SQUOTE) with false by reflexivity.
      replace (nextMode (Some p) SQUOTE (Some SQUOTE) IN_SQUOTE) with NORMAL.
      2:{ unfold nextMode, IN_SQUOTE. simpl.
          now rewrite (N.eqb_sym BACKSLASH p), Hp. }
      replace (cuts SQUOTE NORMAL) with false by reflexivity.
      replace (nextMode (Some SQUOTE) SQUOTE
                 (lookahead (escapeQuotes v ++ [SQUOTE]) nx) NORMAL)
        with IN_SQUOTE by reflexivity.
      now apply IH.
    + cbn [app modeRun].
      replace (cuts c IN_SQUOTE) with false by reflexivity.
      replace (nextMode (Some p) c (lookahead (escapeQuotes v ++ [SQUOTE]) nx)
                 IN_SQUOTE) with IN_SQUOTE.
      2:{ unfold nextMode, IN_SQUOTE. simpl. now rewrite Hc. }
      now apply IH.
Qed.

Lemma quoted_transparent v :
  safeAfter SQUOTE v = true ->
  transparent ([SQUOTE] ++ escapeQuotes v ++ [SQUOTE]) = true.
Proof.
  intros H. apply transparent_intro. cbn [app modeRun].
  replace (cuts SQUOTE NORMAL) with false by reflexivity.
  replace (nextMode None SQUOTE
             (lookahead (escapeQuotes v ++ [SQUOTE]) (Some DASH)) NORMAL)
    with IN_SQUOTE by reflexivity.
  now apply modeRun_escaped.
Qed.

(** In a string opened by a single quote, a text without that quote keeps
    the scan in the string. *)
Lemma modeRun_noQuote (v : jsstring) p nx :
  noQuote v = true -> modeRun p v nx IN_SQUOTE = Some IN_SQUOTE.
Proof.
  revert p. induction v as [|c v IH]; intros p H; [reflexivity|].
  simpl in H. apply andb_true_iff in H as [Hc Hv]. apply negb_true_iff in Hc.
  cbn [modeRun].
  replace (cuts c IN_SQUOTE) with false by reflexivity.
  replace (nextMode p c (lookahead v nx) IN_SQUOTE) with IN_SQUOTE.
  2:{ unfold nextMode, IN_SQUOTE. simpl. now rewrite Hc. }
  now apply IH.
Qed.

(** A value that ends with a backslash and holds no quote: the closing quote
    of its literal does not close the string. *)
Lemma modeRun_trailing_backslash (v : jsstring) p nx :
  noQuote v = true ->
  modeRun p ([SQUOTE] ++ escapeQuotes (v ++ [BACKSLASH]) ++ [SQUOTE]) nx NORMAL
  = Some IN_SQUOTE.
Proof.
  intros H.
  assert (Hq : noQuote (v ++ [BACKSLASH]) = true).
  { unfold noQuote in *. rewrite forallb_app.
    apply andb_true_iff. split; [exact H | reflexivity]. }
  rewrite (escapeQuotes_noQuote _ Hq).
  cbn [app modeRun].
  replace (cuts SQUOTE NORMAL) with false by reflexivity.
  replace (nextMode p SQUOTE (lookahead ((v ++ [BACKSLASH]) ++ [SQUOTE]) nx)
             NORMAL) with IN_SQUOTE by reflexivity.
  rewrite modeRun_app, (modeRun_noQuote _ _ _ Hq), lastOr_snoc.
  reflexivity.
Qed.

Lemma safeAfter_plain (t : jsstring) (p : Char) :
  (p =? BACKSLASH)%N = false ->
  forallb (fun c => negb (c =? BACKSLASH)%N) t = true ->
  safeAfter p t = true.
Proof.
  revert p. induction t as [|c t IH]; intros p Hp H.
  - simpl. now rewrite Hp.
  - simpl in H. apply andb_true_iff in H as [Hc Ht]. apply negb_true_iff in Hc.
    cbn [safeAfter]. rewrite Hp. simpl.
    destruct (c =? SQUOTE)%N; simpl; now apply IH.
Qed.

Lemma toHex_plain b :
  noQuote (toHex b) = true
  /\ forallb (fun c => negb (c =? BACKSLASH)%N) (toHex b) = true.
Proof.
  induction b as [|x b [IH1 IH2]]; [split; reflexivity|].
  change (toHex (x :: b))
    with ([hexDigit (Byte.to_N x / 16); hexDigit (Byte.to_N x mod 16)]
          ++ toHex b).
  unfold noQuote in *. split; rewrite forallb_app; apply andb_true_iff;
    (split; [destruct x; reflexivity | assumption]).
Qed.

Lemma hex_transparent b : transparent (js "X'" ++ toHex b ++ [SQUOTE]) = true.
Proof.
  destruct (toHex_plain b) as [H1 H2].
  change (js "X'" ++ toHex b ++ [SQUOTE])
    with (js "X" ++ [SQUOTE] ++ toHex b ++ [SQUOTE]).
  apply transparent_app; [reflexivity|].
  rewrite <- (escapeQuotes_noQuote _ H1) at 1.
  apply quoted_transparent. now apply safeAfter_plain.
Qed.

End Literals.

(** ** The text of [convertSqliteToSql] under the scan *)

Section Dump.

Context {Number Other : Type}.
Variable numberToString : Number -> jsstring.
Variable otherToString : Other -> jsstring.

Lemma fold_left_append {A : Type} (f : A -> jsstring) l acc :
  fold_left (fun out x => out ++ f x) l acc = acc ++ concat (map f l).
Proof.
  revert acc. induction l as [|x l IH]; intros acc; simpl.
  - now rewrite app_nil_r.
  - rewrite IH. now rewrite <- app_assoc.
Qed.

Lemma appendTable_eq sqlOutput (table : SQLiteTable Number Other) :
  appendTable numberToString otherToString sqlOutput table =
  sqlOutput ++ tableText numberToString otherToString table.
Proof.
  unfold appendTable, tableText, insertLines, columnsOf.
  destruct (rows table) as [|row0 rs] eqn:E.
  - now rewrite app_nil_r.
  - rewrite fold_left_append. now rewrite <- !app_assoc.
Qed.

Lemma sqlOutputOf_eq (tables : list (SQLiteTable Number Other)) :
  sqlOutputOf numberToString otherToString tables =
  concat (map (tableText numberToString otherToString) tables).
Proof.
  unfold sqlOutputOf.
  rewrite <- (app_nil_l (concat _)). generalize (@nil Char).
  induction tables as [|t ts IH]; intros acc; simpl.
  - now rewrite app_nil_r.
  - rewrite IH, appendTable_eq. now rewrite <- app_assoc.
Qed.

Lemma insertStatement_body tableName columnNames values :
  insertStatement tableName columnNames values =
  (js "INSERT INTO " ++ tableName ++ js " (" ++ columnNames
   ++ js ") VALUES (" ++ values ++ js ")") ++ [SEMI].
Proof.
  unfold insertStatement. rewrite <- !app_assoc. reflexivity.
Qed.

Lemma insert_body_transparent tableName columnNames values :
  transparent tableName = true -> transparent columnNames = true ->
  transparent values = true ->
  transparent (js "INSERT INTO " ++ tableName ++ js " (" ++ columnNames
               ++ js ") VALUES (" ++ values ++ js ")") = true.
Proof.
  intros H1 H2 H3.
  repeat (apply transparent_app; [first [assumption | reflexivity]|]).
  reflexivity.
Qed.

Lemma insertStatement_trim tableName columnNames values :
  trim (insertStatement tableName columnNames values) =
  insertStatement tableName columnNames values.
Proof.
  rewrite insertStatement_body at 1.
  rewrite (trim_snoc _ _ isWhiteSpace_SEMI).
  rewrite insertStatement_body. reflexivity.
Qed.

Lemma rowValues_transparent columns (row : SQLiteRow Number Other) :
  forallb (fun col => transparent (renderValue numberToString otherToString
                                     (getProperty row col))) columns = true ->
  transparent (rowValues numberToString otherToString columns row) = true.
Proof.
  intros H. unfold rowValues. apply transparent_join; [reflexivity|].
  rewrite forallb_forall in *. intros x Hx.
  apply in_map_iff in Hx as [col [<- Hin]]. now apply H.
Qed.

(** The lines of the rows, read with a blank buffer, give one statement per
    row and leave a blank buffer. *)
Lemma emitted_insert_lines tableName columns
    (rs : list (SQLiteRow Number Other)) rest p cur :
  transparent tableName = true -> forallb transparent columns = true ->
  forallb
    (fun row =>
       forallb
         (fun col => transparent (renderValue numberToString otherToString
                                    (getProperty row col))) columns) rs = true ->
  blank cur = true ->
  exists p' cur',
    blank cur' = true
    /\ emitted p
         (concat
            (map (fun row =>
                    insertStatement tableName (join (js ", ") columns)
                      (rowValues numberToString otherToString columns row)
                    ++ [LF]) rs) ++ rest) cur NORMAL
       = map (fun row =>
                insertStatement tableName (join (js ", ") columns)
                  (rowValues numberToString otherToString columns row)) rs
         ++ emitted p' rest cur' NORMAL.
Proof.
  intros Hn Hc. revert p cur. induction rs as [|row rs IH]; intros p cur Hr B.
  - exists p, cur. auto.
  - simpl in Hr. apply andb_true_iff in Hr as [Hrow Hrs].
    destruct (IH (lastOr (Some SEMI) [LF]) ([] ++ [LF]) Hrs eq_refl)
      as [p' [cur' [B' E]]].
    exists p', cur'. split; [assumption|].
    cbn [map concat].
    pose proof (insertStatement_body tableName (join (js ", ") columns)
                  (rowValues numberToString otherToString columns row)) as Eb.
    pose proof (insertStatement_trim tableName (join (js ", ") columns)
                  (rowValues numberToString otherToString columns row)) as Et.
    set (stmt := insertStatement tableName (join (js ", ") columns)
                   (rowValues numberToString otherToString columns row)) in *.
    set (body := js "INSERT INTO " ++ tableName ++ js " (" ++
                 join (js ", ") columns ++ js ") VALUES (" ++
                 rowValues numberToString otherToString columns row ++ js ")")
      in *.
    assert (Hb : transparent body = true).
    { apply insert_body_transparent; [assumption | | ].
      - now apply transparent_join.
      - now apply rowValues_transparent. }
    rewrite <- !app_assoc. rewrite Eb at 1. rewrite <- !app_assoc.
    change (body ++ [SEMI] ++ [LF] ++ ?x) with (body ++ SEMI :: ([LF] ++ x)).
    rewrite (emitted_statement _ _ _ _ Hb B).
    rewrite (emitted_transparent [LF] _ _ _ eq_refl).
    rewrite E. cbn [map app]. f_equal.
    now rewrite <- Eb.
Qed.

Lemma emitted_tables (tables : list (SQLiteTable Number Other)) p cur :
  forallb (safeTable numberToString otherToString) tables = true ->
  blank cur = true ->
  emitted p (concat (map (tableText numberToString otherToString) tables))
          cur NORMAL
  = flat_map (tableStatements numberToString otherToString) tables.
Proof.
  revert p cur. induction tables as [|t ts IH]; intros p cur H B.
  - simpl. rewrite emitted_nil. now rewrite (proj2 (truthy_false _) (trim_blank_nil _ B)).
  - simpl in H. apply andb_true_iff in H as [Ht Hts].
    unfold safeTable in Ht.
    apply andb_true_iff in Ht as [Ht Hrows].
    apply andb_true_iff in Ht as [Ht Hcols].
    apply andb_true_iff in Ht as [Hsql Hname].
    cbn [map concat flat_map]. unfold tableText at 1, tableStatements at 1.
    rewrite <- !app_assoc.
    change (sql t ++ [SEMI; LF; LF] ++ ?x)
      with (sql t ++ SEMI :: ([LF; LF] ++ x)).
    rewrite (emitted_statement _ _ _ _ Hsql B).
    rewrite (emitted_transparent [LF; LF] _ _ _ eq_refl).
    cbn [app]. f_equal.
    destruct (rows t) as [|row0 rs] eqn:E.
    + cbn [map app]. now apply IH.
    + unfold insertLines. rewrite E. rewrite <- !app_assoc.
      destruct (emitted_insert_lines (name t) (columnsOf t) (row0 :: rs)
                  ([LF] ++ concat (map (tableText numberToString otherToString) ts))
                  (lastOr (Some SEMI) [LF; LF]) [LF; LF] Hname Hcols Hrows
                  eq_refl) as [p' [cur' [B' Eq]]].
      rewrite Eq. f_equal.
      rewrite (emitted_transparent [LF] _ _ _ eq_refl).
      apply IH; [assumption|].
      rewrite blank_app, B'. reflexivity.
Qed.

End Dump.

(** ** The statement loop and the default output path *)

Section Driver.

Lemma split_truthy s :
  Forall (fun x => truthy (trim x) = true) (splitSqlStatements s).
Proof.
  destruct (split_segments s) as [segs [rest [_ [F [[T ->]|[_ ->]]]]]].
  - apply Forall_app. split.
    + apply Forall_map. eapply Forall_impl; [|exact F].
      intros seg H. rewrite trim_idem. now apply truthy_true, trim_terminated.
    + constructor; [|constructor]. rewrite trim_idem. now apply truthy_true.
  - apply Forall_map. eapply Forall_impl; [|exact F].
    intros seg H. rewrite trim_idem. now apply truthy_true, trim_terminated.
Qed.

Lemma executeStatements_all {DB Err : Type}
    (exec : DB -> jsstring -> DB * option Err) (message : Err -> jsstring)
    statements (w : World DB) :
  Forall (fun x => truthy (trim x) = true) statements ->
  execLog (executeStatements exec message w statements)
  = execLog w ++ statements
  /\ db (executeStatements exec message w statements)
     = fold_left (fun d x => fst (exec d x)) statements (db w).
Proof.
  intros F. revert w. induction F as [|x l Hx F IH]; intros w.
  - simpl. now rewrite app_nil_r.
  - unfold executeStatements in *. cbn [fold_left].
    destruct (IH (executeStatement exec message w x)) as [IH1 IH2].
    rewrite IH1, IH2. unfold executeStatement. rewrite Hx.
    destruct (exec (db w) x) as [d [e|]]; simpl; now rewrite <- app_assoc.
Qed.

Lemma eqs_eq a b : eqs a b = true -> a = b.
Proof. unfold eqs. destruct (list_eq_dec N.eq_dec a b); [auto|discriminate]. Qed.

Lemma endsWith_split suffix s :
  endsWith suffix s = true -> s = dropLast (length suffix) s ++ suffix.
Proof.
  unfold endsWith, dropLast. intros H. apply eqs_eq in H.
  rewrite <- (firstn_skipn (length s - length suffix) s) at 1.
  now rewrite H.
Qed.

End Driver.

(** * Further properties *)

(** ** The splitter *)

(** X1: the splitter returns no statement exactly when its input is empty or
    only whitespace. *)
Theorem X1_no_statement_iff_blank :
  forall s, splitSqlStatements s = [] <-> blank s = true.
Proof.
  intros s. split.
  - intros H.
    destruct (split_segments s) as [segs [rest [E [_ [[_ Hs]|[B Hs]]]]]];
      rewrite H in Hs.
    + symmetry in Hs. now apply app_eq_nil in Hs as [_ Hs].
    + symmetry in Hs. apply map_eq_nil in Hs. subst segs. now subst s.
  - intros B. rewrite split_emitted, (emitted_blank _ _ _ _ B), emitted_nil.
    reflexivity.
Qed.

(** X2: every statement is already trimmed: trimming it again changes
    nothing. *)
Theorem X2_statements_are_trimmed :
  forall s, Forall (fun x => trim x = x) (splitSqlStatements s).
Proof.
  intros s.
  destruct (split_segments s) as [segs [rest [_ [_ [[_ ->]|[_ ->]]]]]].
  - apply Forall_app. split.
    + apply Forall_map, Forall_forall. intros; apply trim_idem.
    + constructor; [apply trim_idem | constructor].
  - apply Forall_map, Forall_forall. intros; apply trim_idem.
Qed.

(** X3: in an input with no quote and no dash, the statement boundaries are
    exactly the positions of the terminator. *)
Theorem X3_plain_input_boundaries :
  forall s k,
    quoteDashFree s = true -> is_boundary s k = eqc SEMI (nth_error s k).
Proof.
  intros s k H.
  assert (Hm : forall j, modeOf (scan s j) = NORMAL).
  { induction j as [|j IH]; [reflexivity|].
    destruct (nth_error s j) as [c|] eqn:E.
    - pose proof (nth_error_In _ _ E) as Hin.
      unfold quoteDashFree in H. rewrite forallb_forall in H.
      specialize (H c Hin). apply negb_true_iff in H.
      apply orb_false_iff in H as [H H3]. apply orb_false_iff in H as [H1 H2].
      now apply (modeOf_run_normal s j c).
    - apply nth_error_None in E. now rewrite scan_past. }
  destruct (nth_error s k) as [c|] eqn:E.
  - rewrite (is_boundary_cuts _ _ _ E), Hm. simpl. apply N.eqb_sym.
  - apply nth_error_None in E. now apply is_boundary_past.
Qed.

(** An input with two terminators and neither quote nor dash. *)
Lemma X3_plain_input_boundaries_witness :
  is_boundary (js "a;b;") 1 = eqc SEMI (nth_error (js "a;b;") 1).
Proof.
  apply (X3_plain_input_boundaries (js "a;b;") 1). reflexivity.
Defined.

(** X4: splitting is compositional at a boundary: when the last character of
    [a] is a statement boundary of [a], the statements of [a ++ b] are those
    of [a] followed by those of [b]. *)
Theorem X4_split_app_at_boundary :
  forall a b,
    is_boundary a (length a - 1) = true ->
    splitSqlStatements (a ++ b) = splitSqlStatements a ++ splitSqlStatements b.
Proof.
  intros a b H.
  destruct a as [|a0 a'] using rev_ind; [discriminate|]. clear IHa'.
  rewrite length_app in H. simpl in H.
  replace (length a' + 1 - 1) with (length a') in H by lia.
  pose proof (boundary_after _ _ H) as [Hc [Hm [Hn _]]].
  rewrite nth_error_app2, Nat.sub_diag in Hn by lia.
  simpl in Hn. injection Hn as ->.
  replace (S (length a')) with (length (a' ++ [SEMI])) in Hc, Hm
    by (rewrite length_app; simpl; lia).
  rewrite scan_run in Hc, Hm. unfold run in Hc, Hm.
  rewrite !split_run. unfold run at 1 2.
  rewrite runTo_app, lastOr_snoc.
  rewrite (runTo_lookahead_last a' SEMI None None (lookahead b None) initial)
    by reflexivity.
  set (st := runTo None (a' ++ [SEMI]) None initial) in *.
  rewrite (modeOf_eta st), Hc, Hm, finish_runTo_prefix, finish_withMode.
  simpl. rewrite app_nil_r. f_equal.
  apply (emitted_prev b None (Some SEMI) []).
Qed.

(** The first statement of [a;b] ends [a;]. *)
Lemma X4_split_app_at_boundary_witness :
  splitSqlStatements (js "a;" ++ js "b") =
  splitSqlStatements (js "a;") ++ splitSqlStatements (js "b").
Proof.
  apply (X4_split_app_at_boundary (js "a;") (js "b")). reflexivity.
Defined.

(** X5: whitespace before and after the input does not change the
    statements. *)
Theorem X5_surrounding_whitespace_ignored :
  forall w1 s w2,
    blank w1 = true -> blank w2 = true ->
    splitSqlStatements (w1 ++ s ++ w2) = splitSqlStatements s.
Proof.
  intros w1 s w2 B1 B2. rewrite !split_emitted.
  rewrite (emitted_transparent _ _ _ _ (blank_transparent _ B1)).
  rewrite (emitted_prev _ None), (emitted_app_blank _ _ _ _ _ B2).
  simpl. rewrite <- (app_nil_r w1). now apply emitted_blank_buffer.
Qed.

(** An indented statement followed by a newline. *)
Lemma X5_surrounding_whitespace_ignored_witness :
  splitSqlStatements (js "  " ++ js "SELECT 1;" ++ [LF]) =
  splitSqlStatements (js "SELECT 1;").
Proof.
  apply (X5_surrounding_whitespace_ignored (js "  ") (js "SELECT 1;") [LF]);
    reflexivity.
Defined.

(** X6: a line comment ends at the first newline or carriage return,
    whatever it holds (quotes included): the scan is outside strings and
    comments right after it, so the next position is a boundary exactly when
    it holds the terminator. *)
Theorem X6_comment_ends_at_line_end :
  forall s i k,
    opensComment s i = true -> i < k -> sameLineBetween s i k = true ->
    isLineEnd s k = true ->
    modeOf (scan s (S k)) = NORMAL
    /\ is_boundary s (S k) = eqc SEMI (nth_error s (S k)).
Proof.
  intros s i k Ho Hik Hl He.
  destruct (inside_comment _ _ _ Ho Hik Hl) as [H1 H2].
  assert (Hm : modeOf (scan s (S k)) = NORMAL).
  { pose proof (wf_scan s k) as W. unfold wf, modeOf in W.
    rewrite H1 in W. destruct W as [_ W]. specialize (W eq_refl).
    unfold isLineEnd in He.
    destruct (nth_error s k) as [c|] eqn:E; [|discriminate].
    rewrite (mode_step _ _ _ E). unfold modeOf. rewrite H1, H2, W.
    unfold nextMode. cbn [eqc] in He.
    rewrite (N.eqb_sym c LF), (N.eqb_sym c CR), He.
    apply orb_true_iff in He as [He|He]; apply N.eqb_eq in He; subst c;
      reflexivity. }
  split; [exact Hm|].
  destruct (nth_error s (S k)) as [c|] eqn:E.
  - rewrite (is_boundary_cuts _ _ _ E), Hm. simpl. apply N.eqb_sym.
  - apply nth_error_None in E. now apply is_boundary_past.
Qed.

(** A comment with a quote, then a statement. *)
Lemma X6_comment_ends_at_line_end_witness :
  modeOf (scan (js "-- it's" ++ [LF] ++ js ";") 8) = NORMAL
  /\ is_boundary (js "-- it's" ++ [LF] ++ js ";") 8
     = eqc SEMI (nth_error (js "-- it's" ++ [LF] ++ js ";") 8).
Proof.
  apply (X6_comment_ends_at_line_end (js "-- it's" ++ [LF] ++ js ";") 0 7);
    [reflexivity | lia | reflexivity | reflexivity].
Defined.

(** X7: a string ends at the first occurrence of its opening quote that
    does not follow a backslash, whatever it holds (dashes and the other
    quote included): the scan is outside strings and comments right after
    it, so the next position is a boundary exactly when it holds the
    terminator. *)
Theorem X7_string_ends_at_unescaped_quote :
  forall s i q k,
    opensString s i q = true -> i < k -> unclosedBetween s q i k = true ->
    closesString s q k = true ->
    modeOf (scan s (S k)) = NORMAL
    /\ is_boundary s (S k) = eqc SEMI (nth_error s (S k)).
Proof.
  intros s i q k Ho Hik Hu Hc.
  pose proof (inside_string _ _ _ _ Ho Hik Hu) as Hs.
  assert (Hm : modeOf (scan s (S k)) = NORMAL).
  { unfold closesString in Hc. apply andb_true_iff in Hc as [Hq Hp].
    destruct (nth_error s k) as [c|] eqn:E; [|discriminate].
    cbn [eqc] in Hq. apply N.eqb_eq in Hq. subst c.
    rewrite (mode_step _ _ _ E), Hs. unfold nextMode. simpl.
    rewrite N.eqb_refl, Hp. reflexivity. }
  split; [exact Hm|].
  destruct (nth_error s (S k)) as [c|] eqn:E.
  - rewrite (is_boundary_cuts _ _ _ E), Hm. simpl. apply N.eqb_sym.
  - apply nth_error_None in E. now apply is_boundary_past.
Qed.

(** A string with two dashes and a terminator, then the terminator. *)
Lemma X7_string_ends_at_unescaped_quote_witness :
  modeOf (scan (js "'a--b;';") 7) = NORMAL
  /\ is_boundary (js "'a--b;';") 7 = eqc SEMI (nth_error (js "'a--b;';") 7).
Proof.
  apply (X7_string_ends_at_unescaped_quote (js "'a--b;';") 0 SQUOTE 6);
    [reflexivity | lia | reflexivity | reflexivity].
Defined.

(** ** The statement loop of [convertSqlToSqlite] *)

(** X8: whatever the database driver does, every statement the splitter
    returns is handed to [db.exec], once and in order: the guard on blank
    statements never skips one, and a statement that fails does not stop
    the later ones. *)
Theorem X8_every_statement_executed :
  forall (DB Err : Type) (exec : DB -> jsstring -> DB * option Err)
         (message : Err -> jsstring) (w : World DB) (sqlContent : jsstring),
    execLog (executeStatements exec message w (splitSqlStatements sqlContent))
    = execLog w ++ splitSqlStatements sqlContent
    /\ db (executeStatements exec message w (splitSqlStatements sqlContent))
       = fold_left (fun d x => fst (exec d x))
                   (splitSqlStatements sqlContent) (db w).
Proof.
  intros. apply executeStatements_all, split_truthy.
Qed.

(** ** The values [convertSqliteToSql] writes *)

(** X9: doubling the quotes loses nothing: two values with the same escaped
    text are the same value. *)
Theorem X9_escapeQuotes_injective :
  forall a b, escapeQuotes a = escapeQuotes b -> a = b.
Proof.
  induction a as [|c a IH]; intros [|d b] H.
  - reflexivity.
  - rewrite escapeQuotes_cons in H. destruct (d =? SQUOTE)%N; discriminate.
  - rewrite escapeQuotes_cons in H. destruct (c =? SQUOTE)%N; discriminate.
  - rewrite !escapeQuotes_cons in H.
    destruct (c =? SQUOTE)%N eqn:Hc, (d =? SQUOTE)%N eqn:Hd.
    + apply N.eqb_eq in Hc, Hd. subst. injection H as H. f_equal. now apply IH.
    + injection H as H1 H2. subst d. discriminate.
    + injection H as H1 H2. subst c. discriminate.
    + injection H as H1 H2. subst. f_equal. now apply IH.
Qed.

(** A value with a quote. *)
Lemma X9_escapeQuotes_injective_witness : js "it's" = js "it's".
Proof.
  apply (X9_escapeQuotes_injective (js "it's") (js "it's")). reflexivity.
Defined.

(** X10: the literal of a string value in which no quote comes right after a
    backslash, and which does not end with a backslash, is read by the
    splitter as it is meant: wherever it stands outside strings and
    comments, none of its characters is a boundary (terminators and dashes
    in the value included) and the scan is outside strings and comments
    after it. *)
Theorem X10_string_literal_is_one_string :
  forall (Number Other : Type) (numberToString : Number -> jsstring)
         (otherToString : Other -> jsstring) (pre v rest : jsstring),
    modeOf (scan (pre ++ renderValue numberToString otherToString
                           (Some (JString v)) ++ rest) (length pre)) = NORMAL ->
    safeAfter SQUOTE v = true ->
    scan (pre ++ renderValue numberToString otherToString (Some (JString v))
              ++ rest)
         (length pre
          + length (renderValue numberToString otherToString (Some (JString v))))
    = withMode
        (statements
           (scan (pre ++ renderValue numberToString otherToString
                           (Some (JString v)) ++ rest) (length pre)))
        (currentStatement
           (scan (pre ++ renderValue numberToString otherToString
                           (Some (JString v)) ++ rest) (length pre))
         ++ renderValue numberToString otherToString (Some (JString v)))
        NORMAL.
Proof.
  intros Number Other nts ots pre v rest Hm Hs.
  apply scan_transparent; [assumption|].
  now apply quoted_transparent.
Qed.

(** The value [a';--b] after [x = ]. *)
Lemma X10_string_literal_is_one_string_witness :
  scan (js "x = " ++ renderValue (fun n : unit => []) (fun o : unit => [])
                       (Some (JString (js "a';--b"))) ++ js ";")
       (4 + 9)
  = withMode [] (js "x = " ++ js "'a'';--b'") NORMAL.
Proof.
  apply (X10_string_literal_is_one_string unit unit (fun _ => []) (fun _ => [])
           (js "x = ") (js "a';--b") (js ";")); reflexivity.
Defined.

(** X11: the literal of a string value without quote that ends with a
    backslash is not closed for the splitter: wherever it stands outside
    strings and comments, the scan is still inside a string after it, so
    the position that follows it is not a boundary. *)
Theorem X11_trailing_backslash_leaves_string_open :
  forall (Number Other : Type) (numberToString : Number -> jsstring)
         (otherToString : Other -> jsstring) (pre v rest : jsstring),
    modeOf (scan (pre ++ renderValue numberToString otherToString
                           (Some (JString (v ++ [BACKSLASH]))) ++ rest)
                 (length pre)) = NORMAL ->
    noQuote v = true ->
    modeOf (scan (pre ++ renderValue numberToString otherToString
                           (Some (JString (v ++ [BACKSLASH]))) ++ rest)
                 (length pre
                  + length (renderValue numberToString otherToString
                              (Some (JString (v ++ [BACKSLASH]))))))
    = IN_SQUOTE
    /\ is_boundary
         (pre ++ renderValue numberToString otherToString
                   (Some (JString (v ++ [BACKSLASH]))) ++ rest)
         (length pre
          + length (renderValue numberToString otherToString
                      (Some (JString (v ++ [BACKSLASH])))))
       = false.
Proof.
  intros Number Other nts ots pre v rest Hm Hq.
  set (lit := renderValue nts ots (Some (JString (v ++ [BACKSLASH])))) in *.
  set (s := pre ++ lit ++ rest) in *.
  assert (E : modeOf (scan s (length pre + length lit)) = IN_SQUOTE).
  { unfold s. rewrite scan_range. fold s.
    rewrite (modeOf_eta (scan s (length pre))), Hm.
    rewrite (modeRun_runTo lit _ _ NORMAL IN_SQUOTE).
    - apply withMode_modeOf.
    - now apply modeRun_trailing_backslash. }
  split; [exact E|].
  destruct (nth_error s (length pre + length lit)) as [c|] eqn:En.
  - rewrite (is_boundary_cuts _ _ _ En), E. reflexivity.
  - apply nth_error_None in En. now apply is_boundary_past.
Qed.

(** The value [C:\] followed by the end of an [INSERT]. *)
Lemma X11_trailing_backslash_leaves_string_open_witness :
  modeOf (scan (js "(" ++ renderValue (fun n : unit => []) (fun o : unit => [])
                            (Some (JString (js "C:" ++ [BACKSLASH])))
                  ++ js ");") (1 + 5)) = IN_SQUOTE
  /\ is_boundary
       (js "(" ++ renderValue (fun n : unit => []) (fun o : unit => [])
                    (Some (JString (js "C:" ++ [BACKSLASH]))) ++ js ");")
       (1 + 5) = false.
Proof.
  apply (X11_trailing_backslash_leaves_string_open unit unit
           (fun _ => []) (fun _ => []) (js "(") (js "C:") (js ");"));
    reflexivity.
Defined.

(** X12: [NULL], the hexadecimal literal of any Buffer and the text written
    for [undefined] are always read by the splitter as they are meant:
    wherever they stand outside strings and comments, none of their
    characters is a boundary and the scan is outside strings and comments
    after them. *)
Theorem X12_null_and_buffers_are_safe :
  forall (Number Other : Type) (numberToString : Number -> jsstring)
         (otherToString : Other -> jsstring)
         (val : option (SQLiteValue Number Other)) (pre rest : jsstring),
    val = Some JNull \/ val = None \/ (exists b, val = Some (JBuffer b)) ->
    modeOf (scan (pre ++ renderValue numberToString otherToString val ++ rest)
                 (length pre)) = NORMAL ->
    scan (pre ++ renderValue numberToString otherToString val ++ rest)
         (length pre + length (renderValue numberToString otherToString val))
    = withMode
        (statements
           (scan (pre ++ renderValue numberToString otherToString val ++ rest)
                 (length pre)))
        (currentStatement
           (scan (pre ++ renderValue numberToString otherToString val ++ rest)
                 (length pre))
         ++ renderValue numberToString otherToString val)
        NORMAL.
Proof.
  intros Number Other nts ots val pre rest Hv Hm.
  apply scan_transparent; [assumption|].
  destruct Hv as [-> | [-> | [b ->]]]; [reflexivity | reflexivity |].
  apply hex_transparent.
Qed.

(** A Buffer of two bytes. *)
Lemma X12_null_and_buffers_are_safe_witness :
  scan (js "(" ++ renderValue (fun n : unit => []) (fun o : unit => [])
                    (Some (JBuffer [Byte.x01; Byte.xff])) ++ js ");")
       (1 + 7)
  = withMode [] (js "(" ++ js "X'01ff'") NORMAL.
Proof.
  apply (X12_null_and_buffers_are_safe unit unit (fun _ => []) (fun _ => [])
           (Some (JBuffer [Byte.x01; Byte.xff])) (js "(") (js ");"));
    [right; right; now exists [Byte.x01; Byte.xff] | reflexivity].
Defined.

(** X13: the text [convertSqliteToSql] builds is split back into its
    statements, one [CREATE TABLE] per table and one [INSERT] per row, in
    order, when every piece it is made of (the [sql] and name of each table,
    the column names, the text of each value) is transparent to the
    scan. *)
Theorem X13_dump_splits_into_its_statements :
  forall (Number Other : Type) (numberToString : Number -> jsstring)
         (otherToString : Other -> jsstring)
         (tables : list (SQLiteTable Number Other)),
    forallb (safeTable numberToString otherToString) tables = true ->
    splitSqlStatements (sqlOutputOf numberToString otherToString tables)
    = flat_map (tableStatements numberToString otherToString) tables.
Proof.
  intros Number Other nts ots tables H.
  rewrite split_emitted, sqlOutputOf_eq. now apply emitted_tables.
Qed.

(** A table with two rows, a quote and a terminator in a value, and an empty
    table. *)
Lemma X13_dump_splits_into_its_statements_witness :
  splitSqlStatements
    (sqlOutputOf (fun n : jsstring => n) (fun o : unit => [])
       [mkTable (js "t") (js "CREATE TABLE t (a TEXT, b BLOB)")
          [[(js "a", JString (js "it's; ok")); (js "b", JBuffer [Byte.x0a])];
           [(js "a", JNull); (js "b", JNumber (js "-1.5"))]];
        mkTable (js "u") (js "CREATE TABLE u (c)") []])
  = [js "CREATE TABLE t (a TEXT, b BLOB);";
     js "INSERT INTO t (a, b) VALUES ('it''s; ok', X'0a');";
     js "INSERT INTO t (a, b) VALUES (NULL, -1.5);";
     js "CREATE TABLE u (c);"].
Proof.
  apply (X13_dump_splits_into_its_statements jsstring unit
           (fun n => n) (fun _ => [])
           [mkTable (js "t") (js "CREATE TABLE t (a TEXT, b BLOB)")
              [[(js "a", JString (js "it's; ok")); (js "b", JBuffer [Byte.x0a])];
               [(js "a", JNull); (js "b", JNumber (js "-1.5"))]];
            mkTable (js "u") (js "CREATE TABLE u (c)") []]).
  reflexivity.
Defined.

(** ** The default output path of the [convert] command *)

(** X14: the extension removed from the input file name is the empty one or
    one of [.sqlite], [.sqlite3], [.db], so the default output name, which
    ends with [.sql], is never the input file name. *)
Theorem X14_default_output_differs_from_input :
  forall inputFile,
    (exists ext,
       inputFile = stripDbExtension inputFile ++ ext
       /\ In ext [[]; js ".sqlite"; js ".sqlite3"; js ".db"])
    /\ defaultOutput inputFile <> js "./" ++ inputFile.
Proof.
  intros f.
  assert (H : exists ext,
             f = stripDbExtension f ++ ext
             /\ In ext [[]; js ".sqlite"; js ".sqlite3"; js ".db"]).
  { unfold stripDbExtension.
    destruct (endsWith (js ".sqlite") f) eqn:E1.
    { exists (js ".sqlite").
      split; [exact (endsWith_split (js ".sqlite") f E1) | simpl; auto]. }
    destruct (endsWith (js ".sqlite3") f) eqn:E2.
    { exists (js ".sqlite3").
      split; [exact (endsWith_split (js ".sqlite3") f E2) | simpl; auto]. }
    destruct (endsWith (js ".db") f) eqn:E3.
    { exists (js ".db").
      split; [exact (endsWith_split (js ".db") f E3) | simpl; auto]. }
    exists []. split; [now rewrite app_nil_r | simpl; auto]. }
  split; [exact H|].
  destruct H as [ext [E Hin]]. unfold defaultOutput. intros C.
  apply app_inv_head in C. rewrite E in C at 2. apply app_inv_head in C.
  simpl in Hin. destruct Hin as [<-|[<-|[<-|[<-|[]]]]]; discriminate.
Qed.
